(** * Feature-importance consensus and PCA-informed risk thresholds

    A shallow embedding of the analysis cells of
    [notebooks/4_feature_importance_analysis.ipynb].

    Modelling conventions.
    - A float64 cell is an [fval]: [Some q] is a finite number, held as an
      exact rational, and [None] is NaN.  The theorems are stated over
      these fractions and say what the binary64 arithmetic of the notebook
      keeps as well: which cells are NaN, ranges, orders that rounding
      cannot reverse, means as sums over counts.  They state no strict
      order between rounded values and no exact invariance; module [F64]
      shows on the kernel's binary64 numbers what rounding does to those.
    - The divisions of the notebook, [(x - min) / (max - min)] and
      [(x - mean) / std], meet a zero denominator only together with a zero
      numerator (lemmas [nanmin_nanmax_eq_all] and [pd_std_zero_all_mean]),
      so IEEE infinities never arise from finite data and have no
      constructor.
    - [sort_values] sorts with numpy's default kind, which is not stable.
      The model sorts by insertion; the order it gives to rows with equal
      keys is one the library may return, and no theorem states it.
    - The interpolation of [Series.quantile] is a parameter of the model,
      known only to lie between the two scores it interpolates.
    - A pandas Series is an association list from index labels to cells, in
      row order.  Labels of one Series are assumed distinct, as the feature
      names of a design matrix are.
    - A DataFrame is a row index with named columns of equal length.
    - What the notebook obtains from fitted library models (forest
      importances, permutation scores, SHAP values, OLS parameters, PCA
      scores and components) enters as data. *)

From Stdlib Require Import String Ascii Bool ZArith QArith Qabs Qround Lqa Lia.
From Stdlib Require Import Decimal DecimalNat DecimalString.
From Stdlib Require Import List Permutation Sorted.
From Stdlib Require Import PrimFloat.
Import ListNotations.
Open Scope Q_scope.

(** ** Cells *)

Definition fval := option Q.
Definition NaN : fval := None.

Definition isna (v : fval) : bool :=
  match v with None => true | Some _ => false end.

Definition fsub (a b : fval) : fval :=
  match a, b with
  | Some x, Some y => Some (x - y)
  | _, _ => NaN
  end.

(** [a / b] on cells.  Zero by zero is NaN; the notebook never divides a
    nonzero number by zero (see the head of the file), so that case, an
    infinity in IEEE arithmetic, is not told apart. *)
Definition fdiv (a b : fval) : fval :=
  match a, b with
  | Some x, Some y => if Qeq_bool y 0 then NaN else Some (x / y)
  | _, _ => NaN
  end.

(** [a > b] on cells: a comparison with NaN is False. *)
Definition fgt (a b : fval) : bool :=
  match a, b with
  | Some x, Some y => negb (Qle_bool x y)
  | _, _ => false
  end.

(** Equality of cells up to the value of the fraction. *)
Definition feq (a b : fval) : Prop :=
  match a, b with
  | Some x, Some y => x == y
  | None, None => True
  | _, _ => False
  end.

(** ** Reductions that skip NaN (pandas' default [skipna=True]) *)

Definition qmin (x y : Q) : Q := if Qle_bool x y then x else y.
Definition qmax (x y : Q) : Q := if Qle_bool x y then y else x.

Fixpoint finite (l : list fval) : list Q :=
  match l with
  | [] => []
  | Some q :: l' => q :: finite l'
  | None :: l' => finite l'
  end.

Definition qlist_min (l : list Q) : fval :=
  match l with
  | [] => NaN
  | x :: l' => Some (fold_left qmin l' x)
  end.

Definition qlist_max (l : list Q) : fval :=
  match l with
  | [] => NaN
  | x :: l' => Some (fold_left qmax l' x)
  end.

Definition qsum (l : list Q) : Q := fold_right Qplus 0 l.

Definition qlist_mean (l : list Q) : fval :=
  match l with
  | [] => NaN
  | _ => Some (qsum l / inject_Z (Z.of_nat (length l)))
  end.

Definition nanmin (l : list fval) : fval := qlist_min (finite l).
Definition nanmax (l : list fval) : fval := qlist_max (finite l).
Definition nanmean (l : list fval) : fval := qlist_mean (finite l).

(** ** Series *)

Definition Series (A : Type) := list (string * A).

Definition keys {A} (s : Series A) : list string := map fst s.
Definition values {A} (s : Series A) : list A := map snd s.

Fixpoint get {A} (k : string) (s : Series A) : option A :=
  match s with
  | [] => None
  | (k', v) :: s' => if String.eqb k k' then Some v else get k s'
  end.

(** An ImportanceScore: a finite score per feature name.  [to_series] is the
    pandas Series that holds it. *)
Definition ImportanceScore := Series Q.

Definition to_series (s : ImportanceScore) : Series fval :=
  map (fun kv => (fst kv, Some (snd kv))) s.

(** ** Sorting

    [DataFrame.sort_values] and [Series.sort_values] go through pandas'
    [nargsort]: the NaN rows are set aside, the others are reversed when
    [ascending=False], argsorted in ascending order, reversed again, and the
    NaN rows are appended ([na_position='last']).  The argsort here is an
    insertion by key.  numpy's default kind is not stable, so rows with
    equal keys may come out of the library in another order than this
    one: the theorems use of the sort only that it permutes the rows and
    puts them in order. *)

Section Sorting.
Context {A : Type}.
Variable key : A -> Q.

Fixpoint insert (x : A) (l : list A) : list A :=
  match l with
  | [] => [x]
  | y :: l' => if Qle_bool (key x) (key y) then x :: y :: l'
               else y :: insert x l'
  end.

Definition argsort (l : list A) : list A := fold_right insert [] l.

Definition sort_descending (l : list A) : list A := rev (argsort (rev l)).

Definition ascending (a b : A) : Prop := key a <= key b.
Definition descending (a b : A) : Prop := key b <= key a.
End Sorting.

Section NaNSorting.
Context {A : Type}.
Variable key : A -> fval.

Fixpoint notna_rows (l : list A) : list (Q * A) :=
  match l with
  | [] => []
  | r :: l' => match key r with
               | Some q => (q, r) :: notna_rows l'
               | None => notna_rows l'
               end
  end.

Definition isna_rows (l : list A) : list A :=
  filter (fun r => isna (key r)) l.

Definition nargsort_descending (l : list A) : list A :=
  map snd (sort_descending fst (notna_rows l)) ++ isna_rows l.

(** Largest first, NaN last. *)
Definition fge (a b : fval) : Prop :=
  match a, b with
  | Some x, Some y => y <= x
  | _, None => True
  | None, Some _ => False
  end.

Definition by_key_descending (r r' : A) : Prop := fge (key r) (key r').
End NaNSorting.

(** ** Index alignment in the DataFrame constructor

    [pd.DataFrame(dict of Series)] takes [union_indexes] of the Series'
    indexes: the first index when all are equal, otherwise the distinct
    labels of all of them, sorted.  Every Series is then reindexed on the
    result, a missing label giving NaN. *)

Fixpoint index_equals (a b : list string) : bool :=
  match a, b with
  | [], [] => true
  | x :: a', y :: b' => String.eqb x y && index_equals a' b'
  | _, _ => false
  end.

Fixpoint mem (k : string) (l : list string) : bool :=
  match l with
  | [] => false
  | k' :: l' => String.eqb k k' || mem k l'
  end.

(** distinct labels in order of first appearance *)
Definition uniques (l : list string) : list string :=
  rev (fold_left (fun seen k => if mem k seen then seen else k :: seen) l []).

Fixpoint insert_label (k : string) (l : list string) : list string :=
  match l with
  | [] => [k]
  | k' :: l' => if String.leb k k' then k :: k' :: l'
                else k' :: insert_label k l'
  end.

Definition sort_labels (l : list string) : list string :=
  fold_right insert_label [] l.

Definition fast_unique_multiple_list (indexes : list (list string))
  : list string :=
  sort_labels (uniques (concat indexes)).

Definition union_indexes (indexes : list (list string)) : list string :=
  match indexes with
  | [] => []
  | i0 :: rest =>
      if forallb (index_equals i0) rest then i0
      else fast_unique_multiple_list indexes
  end.

Definition at_label (s : Series fval) (k : string) : fval :=
  match get k s with Some v => v | None => NaN end.

Definition reindex (idx : list string) (s : Series fval) : list fval :=
  map (at_label s) idx.

(** ** DataFrames *)

Record DataFrame := mkDataFrame {
  index : list string;
  columns : Series (list fval)
}.

Definition DataFrame_of_dict (d : Series (Series fval)) : DataFrame :=
  let idx := union_indexes (map (fun c => keys (snd c)) d) in
  {| index := idx;
     columns := map (fun c => (fst c, reindex idx (snd c))) d |}.

(** [df.apply(f, axis=0)] *)
Definition apply_columns (f : list fval -> list fval) (df : DataFrame)
  : DataFrame :=
  {| index := index df;
     columns := map (fun c => (fst c, f (snd c))) (columns df) |}.

(** [df[[c1; ...; cn]]]: the named columns, in the order asked for. *)
Fixpoint select (names : list string) (df : DataFrame)
  : option (list (list fval)) :=
  match names with
  | [] => Some []
  | c :: names' =>
      match get c (columns df), select names' df with
      | Some v, Some vs => Some (v :: vs)
      | _, _ => None
      end
  end.

(** The [i]-th row of a list of columns. *)
Definition row (i : nat) (cols : list (list fval)) : list fval :=
  map (fun c => nth i c NaN) cols.

(** [.mean(axis=1)] over [n] rows *)
Definition mean_axis1 (n : nat) (cols : list (list fval)) : list fval :=
  map (fun i => nanmean (row i cols)) (seq 0 n).

(** ** The consensus aggregator *)

(** [lambda x: (x - x.min())/(x.max()-x.min())] *)
Definition norm_cell (x : list fval) (v : fval) : fval :=
  fdiv (fsub v (nanmin x)) (fsub (nanmax x) (nanmin x)).

Definition minmax (x : list fval) : list fval := map (norm_cell x) x.

Definition comparison (rf perm shap reg pc1 pc2 : Series fval)
  : DataFrame :=
  DataFrame_of_dict
    [("RandomForest", rf); ("Permutation", perm); ("SHAP", shap);
     ("Regression", reg); ("PCA_PC1", pc1); ("PCA_PC2", pc2)]%string.

Definition comparison_norm (rf perm shap reg pc1 pc2 : Series fval)
  : DataFrame :=
  apply_columns minmax (comparison rf perm shap reg pc1 pc2).

(** [comparison_norm[[...]].mean(axis=1)], a Series on the frame's index *)
Definition consensus (rf perm shap reg pc1 pc2 : Series fval)
  : Series fval :=
  let cn := comparison_norm rf perm shap reg pc1 pc2 in
  match select ["RandomForest"; "Permutation"; "SHAP"; "Regression"]%string cn
  with
  | Some cols => combine (index cn) (mean_axis1 (length (index cn)) cols)
  | None => []
  end.

Definition consensus_importance (rf perm shap reg pc1 pc2 : Series fval)
  : Series fval :=
  nargsort_descending snd (consensus rf perm shap reg pc1 pc2).

(** The consensus of feature [k] on the frame's index [idx]: the mean of
    its cells in the four normalized estimator columns. *)
Definition consensus_at (idx : list string) (rf perm shap reg : Series fval)
  (k : string) : fval :=
  nanmean (map (fun s => norm_cell (reindex idx s) (at_label s k))
               [rf; perm; shap; reg]).

(** The min-max normalized score of raw score [a] among the scores of [s]. *)
Definition smin (s : ImportanceScore) : fval := qlist_min (values s).
Definition smax (s : ImportanceScore) : fval := qlist_max (values s).

Definition normalized (s : ImportanceScore) (a : Q) : fval :=
  fdiv (fsub (Some a) (smin s)) (fsub (smax s) (smin s)).

(** An estimator is degenerate when all its scores are identical. *)
Definition degenerate (s : ImportanceScore) : Prop :=
  forall x y, In x (values s) -> In y (values s) -> x == y.

(** ** The four importance frames

    Each frame is built from the feature names and what the fitted library
    model reports, and sorted by importance, largest first.  A frame is kept
    as a Series from feature name to the rest of the row. *)

Definition fabs (v : fval) : fval :=
  match v with Some q => Some (Qabs q) | None => NaN end.

(** [pd.DataFrame({'feature': ..., 'importance': ...})
      .sort_values('importance', ascending=False)] *)
Definition rf_importance (feature_names : list string)
  (feature_importances_ : list Q) : Series fval :=
  nargsort_descending snd
    (combine feature_names (map Some feature_importances_)).

(** rows are [(feature, (importance, std))] *)
Definition perm_importance (feature_names : list string)
  (importances_mean importances_std : list Q) : Series (fval * fval) :=
  nargsort_descending (fun r => fst (snd r))
    (combine feature_names
       (combine (map Some importances_mean) (map Some importances_std))).

(** [np.abs(shap_values).mean(axis=0)]: one mean per feature column over
    the held-out rows; numpy's mean of no rows is NaN. *)
Definition mean_abs_axis0 (ncols : nat) (shap_values : list (list Q))
  : list fval :=
  map (fun j => qlist_mean (map (fun r => Qabs (nth j r 0)) shap_values))
      (seq 0 ncols).

Definition shap_importance (feature_names : list string)
  (shap_values : list (list Q)) : Series fval :=
  nargsort_descending snd
    (combine feature_names
       (mean_abs_axis0 (List.length feature_names) shap_values)).

(** What [sm.OLS(y, X_standardized).fit()] exposes: one parameter and one
    p-value per column of the design, the added constant first. *)
Record OLSResults := mkOLSResults {
  params : list Q;
  pvalues : list Q
}.

(** rows are [(feature, (importance, p_value))];
    [sort_values('importance', key=abs, ascending=False)] *)
Definition coef_importance (feature_names : list string) (model : OLSResults)
  : Series (fval * fval) :=
  nargsort_descending (fun r => fabs (fst (snd r)))
    (combine ("const"%string :: feature_names)
       (combine (map Some (params model)) (map Some (pvalues model)))).

(** [frame.set_index('feature')['importance']] *)
Definition importance_column {B} (frame : Series (fval * B)) : Series fval :=
  map (fun r => (fst r, fst (snd r))) frame.

(** [Series.drop(label)]: every row with that label goes; [None] is the
    KeyError raised when there is none. *)
Definition drop {A} (label : string) (s : Series A) : option (Series A) :=
  if mem label (keys s)
  then Some (filter (fun r => negb (String.eqb (fst r) label)) s)
  else None.


(** The normal equations that an OLS fit [beta] of [y] on the rows of the
    design [X] satisfies: every column of the design is orthogonal to the
    residual. *)
Definition dot (u v : list Q) : Q :=
  qsum (map (fun p => fst p * snd p) (combine u v)).

Definition residuals (X : list (list Q)) (y beta : list Q) : list Q :=
  map (fun p => snd p - dot (fst p) beta) (combine X y).

Definition normal_equations (X : list (list Q)) (y beta : list Q) : Prop :=
  forall j, (j < List.length beta)%nat ->
    dot (map (fun r => nth j r 0) X) (residuals X y beta) == 0.

(** ** Standardization *)

Section Standardization.
(** the square root of the numeric library *)
Variable sqrtQ : Q -> Q.

Definition sum_sq_dev (m : Q) (col : list Q) : Q :=
  qsum (map (fun x => (x - m) * (x - m)) col).

(** [Series.std()]: sample standard deviation, [ddof=1]; NaN when there
    are fewer than two rows. *)
Definition pd_std (col : list Q) : fval :=
  match qlist_mean col with
  | None => NaN
  | Some m =>
      if (List.length col <=? 1)%nat then NaN
      else Some (sqrtQ (sum_sq_dev m col
                        / inject_Z (Z.of_nat (List.length col - 1))))
  end.

(** one column of [(X - X.mean()) / X.std()] *)
Definition standardize_column (col : list Q) : list fval :=
  map (fun x => fdiv (fsub (Some x) (qlist_mean col)) (pd_std col)) col.

(** [sm.add_constant((X - X.mean()) / X.std())] on the named columns of
    [X] with [nrows] rows *)
Definition X_standardized (nrows : nat) (X : Series (list Q))
  : Series (list fval) :=
  ("const"%string, repeat (Some 1) nrows)
    :: map (fun c => (fst c, standardize_column (snd c))) X.

(** [StandardScaler]: population standard deviation, and a zero scale is
    replaced by one ([_handle_zeros_in_scale]). *)
Definition scale_ (col : list Q) : fval :=
  match qlist_mean col with
  | None => NaN
  | Some m =>
      let s := sqrtQ (sum_sq_dev m col
                      / inject_Z (Z.of_nat (List.length col))) in
      Some (if Qeq_bool s 0 then 1 else s)
  end.

Definition scaler_column (col : list Q) : list fval :=
  map (fun x => fdiv (fsub (Some x) (qlist_mean col)) (scale_ col)) col.

(** [scaler.fit_transform(X)] *)
Definition X_scaled (X : Series (list Q)) : list (list fval) :=
  map (fun c => scaler_column (snd c)) X.
End Standardization.

(** The square root of a fraction whose numerator and denominator, in
    lowest terms, are squares; it is taken of nothing else below (on other
    fractions it is the root of the squares underneath, not a square
    root). *)
Definition sqrt_exact (q : Q) : Q :=
  let r := Qred q in Z.sqrt (Qnum r) # Pos.sqrt (Qden r).

(** ** The table *)

(** A row of [df] after the encoding cell. *)
Record Policyholder := mkPolicyholder {
  age : Z;
  bmi : Q;
  children : Z;
  smoker : Z;
  charges : Q;
  sex_male : bool;
  region_northwest : bool;
  region_southeast : bool;
  region_southwest : bool
}.

(** Two Series share their key set. *)
Definition shares_keys {A B} (s : Series A) (s' : Series B) : Prop :=
  Permutation (keys s) (keys s').

(** The score that [s] gives to feature [k]. *)
Definition score_of (s : ImportanceScore) (k : string) : Q :=
  match get k s with Some v => v | None => 0 end.

(** ** Sample tables *)

Module Sample.
Open Scope string_scope.

(** four estimators on four features, each listed by its own ranking *)
Definition rf : ImportanceScore :=
  [("smoker", 6 # 10); ("bmi", 2 # 10); ("age", 15 # 100);
   ("children", 5 # 100)].
Definition perm : ImportanceScore :=
  [("smoker", 1); ("age", 3 # 10); ("bmi", 2 # 10); ("children", 0)].
Definition shap : ImportanceScore :=
  [("smoker", 8000); ("age", 3000); ("bmi", 2000); ("children", 500)].
Definition reg : ImportanceScore :=
  [("smoker", 9500); ("age", 3600); ("bmi", 2000); ("children", 600)].
Definition pc1 : Series fval :=
  [("age", Some (1 # 2)); ("bmi", Some (1 # 2));
   ("children", Some (- (1 # 2))); ("smoker", Some (1 # 2))].
Definition pc2 : Series fval :=
  [("age", Some (1 # 2)); ("bmi", Some (- (1 # 2)));
   ("children", Some (1 # 2)); ("smoker", Some (1 # 2))].

(** a permutation scorer that reports zero for every feature *)
Definition perm_zero : ImportanceScore :=
  [("smoker", 0); ("age", 0); ("bmi", 0); ("children", 0)].

(** a design matrix whose column [smoker] is constant, and its target *)
Definition X : Series (list Q) :=
  [("age", [20; 30; 40]); ("smoker", [1; 1; 1])].
Definition y : list Q := [3000; 2000; 1000].

(** the rows of the regression design for [age] alone, constant first,
    and the fit of [y] on it: [y = 2000 - 1000 * age_standardized] *)
Definition design : list (list Q) := [[1; -1]; [1; 0]; [1; 1]].
Definition fit : OLSResults :=
  {| params := [2000; -1000]; pvalues := [0; 0] |}.

(** frames that do not cover the same features: the permutation frame
    has [children] where the others have [bmi] *)
Definition rf_ab : Series fval := [("bmi", Some 3); ("age", Some 1)].
Definition perm_ac : Series (fval * fval) :=
  [("children", (Some 6, Some 1)); ("age", (Some 2, Some 1))].
Definition coef_ab : Series (fval * fval) :=
  [("const", (Some 10, Some 0)); ("bmi", (Some 3, Some 0));
   ("age", (Some 1, Some 0))].
Definition pc_ab : Series fval := [("age", Some 1); ("bmi", Some 0)].
End Sample.

(** ** Further notions for the aggregator *)

(** A cell that is NaN or lies in [0,1]. *)
Definition unit_or_nan (v : fval) : Prop :=
  match v with Some q => 0 <= q <= 1 | None => True end.

(** [x] comes before [y] in [l]. *)
Definition precedes {A} (x y : A) (l : list A) : Prop :=
  exists l1 l2 l3, l = l1 ++ x :: l2 ++ y :: l3.

(** The largest and the smallest raw score of an estimator. *)
Definition is_max (s : ImportanceScore) (a : Q) : Prop :=
  forall b, In b (values s) -> b <= a.
Definition is_min (s : ImportanceScore) (a : Q) : Prop :=
  forall b, In b (values s) -> a <= b.

(** ** The encoding cell

    [pd.get_dummies(df, columns=['sex', 'region'], drop_first=True)] turns
    each listed column into one indicator column per level, named
    [column_level]; the levels are the distinct values in sorted order, and
    [drop_first] leaves the first of them out.  The columns that are not
    encoded come first, in their order, then the indicator columns of
    [sex], then those of [region]. *)

Definition levels (col : list string) : list string :=
  sort_labels (uniques col).

Definition dummy_name (prefix level : string) : string :=
  (prefix ++ "_" ++ level)%string.

Definition get_dummies_1d (prefix : string) (col : list string)
  : Series (list bool) :=
  map (fun level =>
         (dummy_name prefix level, map (fun v => String.eqb v level) col))
      (tl (levels col)).

(** the number of indicator columns that are set in row [i] *)
Definition set_in_row (i : nat) (frame : Series (list bool)) : nat :=
  List.length (filter (fun c => nth i (snd c) false) frame).

(** the columns of [df] after the encoding, for the columns
    [age, sex, bmi, children, smoker, region, charges] of the table *)
Definition df_columns (sex region : list string) : list string :=
  ["age"; "bmi"; "children"; "smoker"; "charges"]%string
    ++ keys (get_dummies_1d "sex" sex)
    ++ keys (get_dummies_1d "region" region).

(** [df.drop('charges', axis=1).columns]; [None] is the KeyError raised
    when there is no such column. *)
Definition drop_column (label : string) (cols : list string)
  : option (list string) :=
  if mem label cols
  then Some (filter (fun c => negb (String.eqb c label)) cols)
  else None.

Definition feature_names_of (sex region : list string)
  : option (list string) :=
  drop_column "charges" (df_columns sex region).

(** ** The loadings table

    [pca.components_] has one row per component and one column per
    feature.  [pd.DataFrame(array, columns=..., index=...)] raises a
    ValueError unless the array has one row per index label and one column
    per column name. *)

Inductive exn := ValueError | KeyError | TypeError | IndexError.

Inductive outcome (A : Type) :=
| Returned (a : A)
| Raised (e : exn).
Arguments Returned {A} a.
Arguments Raised {A} e.

(** [f'PC{i}'] *)
Definition PC (i : nat) : string :=
  ("PC" ++ NilEmpty.string_of_uint (Nat.to_uint i))%string.

(** [[f'PC{i}' for i in range(1, n+1)]] *)
Definition pc_names (n : nat) : list string := map PC (seq 1 n).

(** the transpose of an array with [ncols] columns *)
Definition transpose (ncols : nat) (a : list (list Q)) : list (list Q) :=
  map (fun j => map (fun r => nth j r 0) a) (seq 0 ncols).

Definition DataFrame_of_array (nrows ncols : nat) (values : list (list Q))
  (columns index : list string) : option (Series (Series fval)) :=
  if ((nrows =? List.length index) && (ncols =? List.length columns))%nat
  then Some (map (fun jc =>
                    (snd jc,
                     combine index
                       (map (fun r => Some (nth (fst jc) r 0)) values)))
                 (combine (seq 0 ncols) columns))
  else None.

(** [loadings], for a PCA that kept [n_components] components of a design
    with the given features; [None] is the ValueError. *)
Definition loadings (feature_names : list string) (n_components : nat)
  (components_ : list (list Q)) : option (Series (Series fval)) :=
  let n_features := List.length feature_names in
  DataFrame_of_array n_features n_components
    (transpose n_features components_)
    (pc_names n_features) feature_names.

(** The comparison cell on the frames and the loadings table: the dict is
    built entry by entry, so the [const] row is dropped before the two
    loading columns are looked up. *)
Definition comparison_cell (rf : Series fval) (perm : Series (fval * fval))
  (shap : Series fval) (coef : Series (fval * fval))
  (L : Series (Series fval)) : outcome (Series fval) :=
  match drop "const" (importance_column coef) with
  | None => Raised KeyError
  | Some reg =>
      match get "PC1"%string L with
      | None => Raised KeyError
      | Some pc1 =>
          match get "PC2"%string L with
          | None => Raised KeyError
          | Some pc2 =>
              Returned (consensus_importance rf (importance_column perm)
                          shap reg pc1 pc2)
          end
      end
  end.

(** two features and the components of a PCA on them *)
Module SamplePCA.
Definition names : list string := ["age"; "bmi"]%string.
Definition components_ : list (list Q) :=
  [[3 # 5; 4 # 5]; [- (4 # 5); 3 # 5]].

End SamplePCA.

(** ** The risk-threshold deriver

    [Series.quantile(0.95)] sorts the scores, takes the position
    [0.95 * (n - 1)] and interpolates between the two scores around it.
    The interpolation is numpy's, in binary64: it is a parameter, of
    which the theorems use only that its result lies between the two
    scores. *)

Section Percentile.
Variable lerp : Q -> Q -> Q -> Q.

Definition quantile (q : Q) (l : list Q) : fval :=
  match l with
  | [] => NaN
  | _ =>
      let s := argsort (fun x => x) l in
      let pos := q * inject_Z (Z.of_nat (List.length l - 1)) in
      let lo := Z.to_nat (Qfloor pos) in
      let hi := Nat.min (S lo) (List.length l - 1) in
      let frac := pos - inject_Z (Qfloor pos) in
      Some (lerp (nth lo s 0) (nth hi s 0) frac)
  end.

Definition pc1_thresh (PC1 : list Q) : fval := quantile (95 # 100) PC1.

(** [df[pca_df['PC1'] > pc1_thresh]] *)
Definition high_pc1 (df : list Policyholder) (PC1 : list Q)
  : list Policyholder :=
  map fst (filter (fun r => fgt (Some (snd r)) (pc1_thresh PC1))
                  (combine df PC1)).
End Percentile.

(** the interpolation without rounding *)
Definition lerp_exact (a b t : Q) : Q := a + (b - a) * t.

Definition zmean (l : list Z) : fval := qlist_mean (map inject_Z l).

(** The values printed as threshold recommendations. *)
Record Recommendation := mkRecommendation {
  rec_age : fval;
  rec_bmi : fval;
  rec_smoker : bool;
  rec_charges : fval
}.

Definition recommend (high : list Policyholder) : Recommendation :=
  {| rec_age := zmean (map age high);
     rec_bmi := qlist_mean (map bmi high);
     rec_smoker := fgt (zmean (map smoker high)) (Some (1 # 2));
     rec_charges := qlist_mean (map charges high) |}.

(** [pd.DataFrame(X_pca[:, :3], columns=['PC1', 'PC2', 'PC3'])], then
    [pca_df['charges'] = y.values].  [X_pca] has one row per record and
    [n_components] columns; the slice keeps at most three of them, and
    the constructor raises ValueError unless it has three columns to
    name, as the assignment does unless [y] has one value per row. *)
Definition pca_df (n_components : nat) (X_pca : list (list Q)) (y : list Q)
  : outcome (Series (list Q)) :=
  if (Nat.min 3 n_components =? 3)%nat then
    if (List.length y =? List.length X_pca)%nat then
      Returned [("PC1"%string, map (fun r => nth 0 r 0) X_pca);
                ("PC2"%string, map (fun r => nth 1 r 0) X_pca);
                ("PC3"%string, map (fun r => nth 2 r 0) X_pca);
                ("charges"%string, y)]
    else Raised ValueError
  else Raised ValueError.

(** The cell that selects the records and prints the recommendations:
    what it selects and what it recommends, or what it raises. *)
Definition risk_cell (lerp : Q -> Q -> Q -> Q) (df : list Policyholder)
  (n_components : nat) (X_pca : list (list Q))
  : outcome (list Policyholder * Recommendation) :=
  match pca_df n_components X_pca (map charges df) with
  | Raised e => Raised e
  | Returned t =>
      match get "PC1"%string t with
      | Some PC1 =>
          let high := high_pc1 lerp df PC1 in
          Returned (high, recommend high)
      | None => Raised KeyError
      end
  end.

(** [&] of two boolean Series on the same index *)
Definition band (a b : list bool) : list bool :=
  map (fun p => fst p && snd p) (combine a b).

Definition high_risk_mask (df : list Policyholder) : list bool :=
  band (band (band (map (fun r => (50 <? age r)%Z) df)
                   (map (fun r => negb (Qle_bool (bmi r) 35)) df))
             (map (fun r => (smoker r =? 1)%Z) df))
       (map (fun r => (children r <? 3)%Z) df).

(** The scores of the first component. *)
Definition PC1_of (X_pca : list (list Q)) : list Q :=
  map (fun r => nth 0 r 0) X_pca.

(** The index below the position [0.95 * (n - 1)] among [n] sorted values. *)
Definition lower_index (n : nat) : nat :=
  Z.to_nat (Qfloor ((95 # 100) * inject_Z (Z.of_nat (n - 1)))).

(** The values strictly above, at most and at least [t]. *)
Definition above (t : Q) (l : list Q) : list Q :=
  filter (fun x => negb (Qle_bool x t)) l.
Definition at_most (t : Q) (l : list Q) : list Q :=
  filter (fun x => Qle_bool x t) l.
Definition at_least (t : Q) (l : list Q) : list Q :=
  filter (fun x => Qle_bool t x) l.

(** The number of smokers among some policyholders. *)
Definition smokers (l : list Policyholder) : nat :=
  List.length (filter (fun r => (smoker r =? 1)%Z) l).

Module SampleRisk.
(** three policyholders and their scores on three components *)
Definition df : list Policyholder :=
  [ mkPolicyholder 23 (22 # 1) 0 0 2400 true false false true;
    mkPolicyholder 45 (27 # 1) 2 0 8100 true true false false;
    mkPolicyholder 61 (38 # 1) 1 1 47000 false false true false ].
Definition X_pca : list (list Q) :=
  [[- 1; 1 # 2; 0]; [0; - 1; 1 # 4]; [2; 1 # 2; - (1 # 4)]].

(** as many records as the insurance table has, with distinct scores on
    the first of three components *)
Definition df_1338 : list Policyholder :=
  repeat (mkPolicyholder 40 (30 # 1) 1 0 9000 true false false false) 1338.
Definition X_pca_1338 : list (list Q) :=
  map (fun i => [inject_Z (Z.of_nat i); 0; 0]) (seq 1 1338).

(** three records with the same score on the first component *)
Definition X_pca_flat : list (list Q) :=
  [[1; 1 # 2; 0]; [1; - 1; 1 # 4]; [1; 1 # 2; - (1 # 4)]].

(** twenty-two records, the last with the largest score *)
Definition df_22 : list Policyholder :=
  repeat (mkPolicyholder 40 (30 # 1) 1 0 9000 true false false false) 21
  ++ [mkPolicyholder 61 (38 # 1) 1 1 47000 false false true false].
Definition X_pca_22 : list (list Q) :=
  repeat [0; 0; 0] 21 ++ [[1; 0; 0]].
End SampleRisk.

(** ** The same cells in binary64

    The cells of the notebook are float64.  The theorems below are stated
    over exact fractions and say only what rounding keeps; what rounding
    breaks is shown on the arithmetic the notebook runs, with the
    kernel's binary64 numbers.  A literal is written in hexadecimal so
    that it is the float it names. *)

Module F64.
Definition fmin (a b : float) : float := if PrimFloat.leb a b then a else b.
Definition fmax (a b : float) : float := if PrimFloat.leb a b then b else a.

Definition min (x : list float) : float :=
  match x with [] => nan | a :: r => fold_left fmin r a end.
Definition max (x : list float) : float :=
  match x with [] => nan | a :: r => fold_left fmax r a end.

(** [(x - x.min())/(x.max()-x.min())] *)
Definition minmax (x : list float) : list float :=
  map (fun v => ((v - min x) / (max x - min x))%float) x.

Definition sum (x : list float) : float := fold_left PrimFloat.add x 0%float.

Fixpoint count (x : list float) : float :=
  match x with [] => 0%float | _ :: r => (count r + 1)%float end.

Definition mean (x : list float) : float := (sum x / count x)%float.

(** [Series.std()]: the squared deviations from the mean, summed, over
    [n - 1], and the square root of that *)
Definition std (x : list float) : float :=
  let avg := mean x in
  PrimFloat.sqrt
    (sum (map (fun v => ((avg - v) * (avg - v))%float) x) / (count x - 1))%float.

(** one column of [(X - X.mean()) / X.std()] *)
Definition standardize (x : list float) : list float :=
  map (fun v => ((v - mean x) / std x)%float) x.



(** a column of three times the BMI 30.1 *)
Definition bmi_30_1 : list float :=
  [0x1.e19999999999ap+4%float; 0x1.e19999999999ap+4%float;
   0x1.e19999999999ap+4%float].
End F64.

(** ** Tactics for concrete tables *)

Ltac solve_in := simpl; repeat (first [left; reflexivity | right]).

Ltac solve_nodup :=
  repeat constructor; simpl;
  intros H; repeat (destruct H as [H|H]; [discriminate H|]); exact H.

(** * Properties *)

(** ** Order facts on fractions *)

Lemma Qle_bool_false_lt (x y : Q) : Qle_bool x y = false -> y < x.
Proof.
  intros H. apply Qnot_le_lt. intros Hle.
  apply Qle_bool_iff in Hle. congruence.
Qed.

(** ** Sorting *)

Section SortingFacts.
Context {A : Type}.
Variable key : A -> Q.

Lemma insert_perm (x : A) (l : list A) :
  Permutation (insert key x l) (x :: l).
Proof.
  induction l as [|y l IH]; simpl; [reflexivity|].
  destruct (Qle_bool (key x) (key y)); [reflexivity|].
  rewrite IH. apply perm_swap.
Qed.

Lemma argsort_perm (l : list A) : Permutation (argsort key l) l.
Proof.
  induction l as [|x l IH]; simpl; [reflexivity|].
  rewrite insert_perm. now constructor.
Qed.

Lemma sort_descending_perm (l : list A) :
  Permutation (sort_descending key l) l.
Proof.
  unfold sort_descending.
  rewrite <- Permutation_rev, argsort_perm. symmetry. apply Permutation_rev.
Qed.

Lemma insert_sorted (x : A) (l : list A) :
  StronglySorted (ascending key) l ->
  StronglySorted (ascending key) (insert key x l).
Proof.
  induction 1 as [|y l Hs IH Hall]; simpl.
  - repeat constructor.
  - destruct (Qle_bool (key x) (key y)) eqn:E.
    + apply Qle_bool_iff in E.
      constructor; [now constructor|].
      constructor; [exact E|].
      eapply Forall_impl; [|exact Hall].
      intros a Ha. unfold ascending in *. now apply Qle_trans with (key y).
    + apply Qle_bool_false_lt in E.
      constructor; [exact IH|].
      eapply Permutation_Forall; [symmetry; apply insert_perm|].
      constructor; [now apply Qlt_le_weak|exact Hall].
Qed.

Lemma argsort_sorted (l : list A) :
  StronglySorted (ascending key) (argsort key l).
Proof.
  induction l as [|x l IH]; simpl; [constructor|now apply insert_sorted].
Qed.

Lemma StronglySorted_app_one (R : A -> A -> Prop) (l : list A) (x : A) :
  StronglySorted R l -> Forall (fun a => R a x) l ->
  StronglySorted R (l ++ [x]).
Proof.
  induction 1 as [|y l Hs IH Hall]; intros Hx; simpl.
  - repeat constructor.
  - inversion Hx; subst.
    constructor; [now apply IH|].
    apply Forall_app; split; [exact Hall|now constructor].
Qed.

Lemma StronglySorted_rev (l : list A) :
  StronglySorted (ascending key) l -> StronglySorted (descending key) (rev l).
Proof.
  induction 1 as [|y l Hs IH Hall]; simpl; [constructor|].
  apply StronglySorted_app_one; [exact IH|].
  apply Forall_rev. exact Hall.
Qed.

Lemma sort_descending_sorted (l : list A) :
  StronglySorted (descending key) (sort_descending key l).
Proof. apply StronglySorted_rev, argsort_sorted. Qed.

(** Stability: the rows of any one key keep their relative order. *)
End SortingFacts.

Section NaNSortingFacts.
Context {A : Type}.
Variable key : A -> fval.

Lemma notna_rows_key (l : list A) (p : Q * A) :
  In p (notna_rows key l) -> key (snd p) = Some (fst p).
Proof.
  induction l as [|r l IH]; simpl; [tauto|].
  destruct (key r) eqn:E; [|exact IH].
  intros [<-|H]; [exact E|now apply IH].
Qed.

Lemma notna_isna_perm (l : list A) :
  Permutation (map snd (notna_rows key l) ++ isna_rows key l) l.
Proof.
  induction l as [|r l IH]; simpl; [reflexivity|].
  unfold isna_rows in *. simpl.
  destruct (key r); simpl.
  - now constructor.
  - symmetry. apply Permutation_cons_app. now symmetry.
Qed.

Lemma nargsort_descending_perm (l : list A) :
  Permutation (nargsort_descending key l) l.
Proof.
  unfold nargsort_descending.
  rewrite (sort_descending_perm fst). apply notna_isna_perm.
Qed.

Lemma isna_rows_sorted (l : list A) :
  StronglySorted (by_key_descending key) (isna_rows key l).
Proof.
  unfold isna_rows.
  induction l as [|r l IH]; simpl; [constructor|].
  destruct (key r) eqn:E; simpl; [exact IH|].
  constructor; [exact IH|].
  apply Forall_forall. intros r' Hr'. apply filter_In in Hr'.
  unfold by_key_descending. rewrite E.
  destruct (key r'); [now destruct Hr'|exact I].
Qed.

Lemma StronglySorted_app (R : A -> A -> Prop) (l1 l2 : list A) :
  StronglySorted R l1 -> StronglySorted R l2 ->
  (forall a b, In a l1 -> In b l2 -> R a b) ->
  StronglySorted R (l1 ++ l2).
Proof.
  induction 1 as [|x l1 Hs IH Hall]; intros H2 H12; simpl; [exact H2|].
  constructor.
  - apply IH; [exact H2|]. intros a b Ha Hb. apply H12; [now right|exact Hb].
  - apply Forall_app; split; [exact Hall|].
    apply Forall_forall. intros b Hb. apply H12; [now left|exact Hb].
Qed.

Lemma StronglySorted_map_snd (l : list (Q * A)) :
  (forall p, In p l -> key (snd p) = Some (fst p)) ->
  StronglySorted (descending fst) l ->
  StronglySorted (by_key_descending key) (map snd l).
Proof.
  intros Hk. induction 1 as [|p l Hs IH Hall]; simpl; [constructor|].
  constructor.
  - apply IH. intros q Hq. apply Hk. now right.
  - apply Forall_forall. intros r Hr.
    apply in_map_iff in Hr. destruct Hr as [q [<- Hq]].
    unfold by_key_descending.
    rewrite (Hk p (or_introl eq_refl)), (Hk q (or_intror Hq)).
    rewrite Forall_forall in Hall. exact (Hall q Hq).
Qed.

Lemma nargsort_descending_sorted (l : list A) :
  StronglySorted (by_key_descending key) (nargsort_descending key l).
Proof.
  unfold nargsort_descending.
  assert (Hk : forall p, In p (sort_descending fst (notna_rows key l)) ->
                         key (snd p) = Some (fst p)).
  { intros p Hp. apply (notna_rows_key l).
    eapply Permutation_in; [apply sort_descending_perm|exact Hp]. }
  apply StronglySorted_app.
  - apply StronglySorted_map_snd; [exact Hk|apply sort_descending_sorted].
  - apply isna_rows_sorted.
  - intros a b Ha Hb. apply filter_In in Hb.
    unfold by_key_descending.
    destruct (key b); [now destruct Hb|].
    now destruct (key a).
Qed.

Lemma filter_nil_iff (p : A -> bool) (l : list A) :
  (forall a, In a l -> p a = false) -> filter p l = [].
Proof.
  induction l as [|x l IH]; intros H; [reflexivity|].
  simpl. rewrite (H x (or_introl eq_refl)). apply IH.
  intros a Ha. apply H. now right.
Qed.

(** Rows that tie, NaN rows included, keep their relative order. *)
End NaNSortingFacts.

(** ** Minimum, maximum and mean of a column *)

Lemma fold_left_qmin_spec (l : list Q) (x : Q) :
  let m := fold_left qmin l x in
  In m (x :: l) /\ Forall (Qle m) (x :: l).
Proof.
  revert x. induction l as [|y l IH]; intros x; simpl.
  - split; [now left|]. constructor; [apply Qle_refl|constructor].
  - destruct (IH (qmin x y)) as [Hin Hall]. simpl in Hin.
    inversion Hall as [|? ? Hm Hl]; subst. unfold qmin in *.
    destruct (Qle_bool x y) eqn:E.
    + apply Qle_bool_iff in E. split; [tauto|].
      constructor; [exact Hm|].
      constructor; [now apply Qle_trans with x|exact Hl].
    + apply Qle_bool_false_lt, Qlt_le_weak in E. split; [tauto|].
      constructor; [now apply Qle_trans with y|].
      constructor; [exact Hm|exact Hl].
Qed.

Lemma fold_left_qmax_spec (l : list Q) (x : Q) :
  let m := fold_left qmax l x in
  In m (x :: l) /\ Forall (fun y => y <= m) (x :: l).
Proof.
  revert x. induction l as [|y l IH]; intros x; simpl.
  - split; [now left|]. constructor; [apply Qle_refl|constructor].
  - destruct (IH (qmax x y)) as [Hin Hall]. simpl in Hin.
    inversion Hall as [|? ? Hm Hl]; subst. unfold qmax in *.
    destruct (Qle_bool x y) eqn:E.
    + apply Qle_bool_iff in E. split; [tauto|].
      constructor; [now apply Qle_trans with y|].
      constructor; [exact Hm|exact Hl].
    + apply Qle_bool_false_lt, Qlt_le_weak in E. split; [tauto|].
      constructor; [exact Hm|].
      constructor; [now apply Qle_trans with x|exact Hl].
Qed.

Lemma qlist_min_spec (l : list Q) (m : Q) :
  qlist_min l = Some m -> In m l /\ Forall (Qle m) l.
Proof.
  destruct l as [|x l]; simpl; [discriminate|].
  intros [= <-]. apply fold_left_qmin_spec.
Qed.

Lemma qlist_max_spec (l : list Q) (m : Q) :
  qlist_max l = Some m -> In m l /\ Forall (fun y => y <= m) l.
Proof.
  destruct l as [|x l]; simpl; [discriminate|].
  intros [= <-]. apply fold_left_qmax_spec.
Qed.

Lemma qlist_min_some (l : list Q) (x : Q) :
  In x l -> exists m, qlist_min l = Some m.
Proof. destruct l; simpl; [tauto|eauto]. Qed.

Lemma qlist_max_some (l : list Q) (x : Q) :
  In x l -> exists m, qlist_max l = Some m.
Proof. destruct l; simpl; [tauto|eauto]. Qed.


(** The minimum and the maximum of a column depend on its values only up
    to order and to the representation of the fractions. *)
Lemma qlist_min_perm (l l' : list Q) (m m' : Q) :
  Permutation l l' -> qlist_min l = Some m -> qlist_min l' = Some m' ->
  m == m'.
Proof.
  intros HP H H'. apply qlist_min_spec in H, H'.
  destruct H as [Hin Hall], H' as [Hin' Hall'].
  rewrite Forall_forall in Hall, Hall'.
  apply Qle_antisym.
  - apply Hall. eapply Permutation_in; [symmetry; exact HP|exact Hin'].
  - apply Hall'. eapply Permutation_in; [exact HP|exact Hin].
Qed.

Lemma qlist_max_perm (l l' : list Q) (m m' : Q) :
  Permutation l l' -> qlist_max l = Some m -> qlist_max l' = Some m' ->
  m == m'.
Proof.
  intros HP H H'. apply qlist_max_spec in H, H'.
  destruct H as [Hin Hall], H' as [Hin' Hall'].
  rewrite Forall_forall in Hall, Hall'.
  apply Qle_antisym.
  - apply Hall'. eapply Permutation_in; [exact HP|exact Hin].
  - apply Hall. eapply Permutation_in; [symmetry; exact HP|exact Hin'].
Qed.

(** When the maximum equals the minimum every value equals both: the
    denominator of the normalization vanishes only with its numerator. *)
Lemma nanmin_nanmax_eq_all (x : list fval) (lo hi v : Q) :
  nanmin x = Some lo -> nanmax x = Some hi -> hi - lo == 0 ->
  In (Some v) x -> v - lo == 0.
Proof.
  unfold nanmin, nanmax. intros Hlo Hhi Hz Hin.
  apply qlist_min_spec in Hlo. apply qlist_max_spec in Hhi.
  destruct Hlo as [_ Hlo], Hhi as [_ Hhi].
  rewrite Forall_forall in Hlo, Hhi.
  assert (Hv : In v (finite x)).
  { clear -Hin. induction x as [|[q|] x IH]; simpl in *; [tauto| |].
    - destruct Hin as [[= ->]|H]; [now left|right; auto].
    - destruct Hin as [H|H]; [discriminate|auto]. }
  specialize (Hlo v Hv). specialize (Hhi v Hv). lra.
Qed.

Lemma finite_map_Some (l : list Q) : finite (map Some l) = l.
Proof. induction l as [|x l IH]; simpl; [reflexivity|now rewrite IH]. Qed.

Lemma not_degenerate_min_lt_max (s : ImportanceScore) (lo hi : Q) :
  ~ degenerate s -> smin s = Some lo -> smax s = Some hi -> lo < hi.
Proof.
  unfold smin, smax. intros Hnd Hlo Hhi.
  apply Qnot_le_lt. intros Hle. apply Hnd.
  apply qlist_min_spec in Hlo. apply qlist_max_spec in Hhi.
  destruct Hlo as [_ Hlo], Hhi as [_ Hhi].
  rewrite Forall_forall in Hlo, Hhi.
  intros x y Hx Hy.
  pose proof (Hlo x Hx). pose proof (Hhi x Hx).
  pose proof (Hlo y Hy). pose proof (Hhi y Hy). lra.
Qed.

Lemma degenerate_min_eq_max (s : ImportanceScore) (lo hi : Q) :
  degenerate s -> smin s = Some lo -> smax s = Some hi -> hi == lo.
Proof.
  unfold smin, smax. intros Hd Hlo Hhi.
  apply qlist_min_spec in Hlo. apply qlist_max_spec in Hhi.
  apply Hd; tauto.
Qed.

(** ** Min-max normalization of one estimator *)

Lemma normalized_degenerate (s : ImportanceScore) (a : Q) :
  degenerate s -> normalized s a = NaN.
Proof.
  intros Hd. unfold normalized.
  destruct (smin s) as [lo|] eqn:Hlo; [|reflexivity].
  destruct (smax s) as [hi|] eqn:Hhi; [|reflexivity].
  simpl. pose proof (degenerate_min_eq_max s lo hi Hd Hlo Hhi) as E.
  assert (Hz : hi - lo == 0) by lra.
  apply Qeq_eq_bool in Hz. now rewrite Hz.
Qed.

Lemma normalized_value (s : ImportanceScore) (a : Q) :
  ~ degenerate s -> In a (values s) ->
  exists lo hi, smin s = Some lo /\ smax s = Some hi /\ lo < hi /\
                lo <= a <= hi /\
                normalized s a = Some ((a - lo) / (hi - lo)).
Proof.
  intros Hnd Hin.
  destruct (qlist_min_some _ _ Hin) as [lo Hlo].
  destruct (qlist_max_some _ _ Hin) as [hi Hhi].
  pose proof (not_degenerate_min_lt_max s lo hi Hnd Hlo Hhi) as Hlt.
  exists lo, hi. repeat split; auto.
  - apply qlist_min_spec in Hlo. destruct Hlo as [_ H].
    rewrite Forall_forall in H. now apply H.
  - apply qlist_max_spec in Hhi. destruct Hhi as [_ H].
    rewrite Forall_forall in H. now apply H.
  - unfold normalized, smin, smax. rewrite Hlo, Hhi. simpl.
    destruct (Qeq_bool (hi - lo) 0) eqn:E; [|reflexivity].
    apply Qeq_bool_iff in E. lra.
Qed.

Lemma unit_interval_div (x d : Q) : 0 < d -> 0 <= x <= d -> 0 <= x / d <= 1.
Proof.
  intros Hd [H0 H1]. split.
  - apply Qle_shift_div_l; [exact Hd|lra].
  - apply Qle_shift_div_r; [exact Hd|lra].
Qed.


(** ** The consensus, feature by feature *)

Lemma map_nth_seq (B : Type) (g : string -> B) (d : string)
  (l : list string) :
  map (fun i => g (nth i l d)) (seq 0 (List.length l)) = map g l.
Proof.
  induction l as [|a l IH]; [reflexivity|].
  simpl. f_equal. rewrite <- seq_shift, map_map. exact IH.
Qed.

Lemma mean_axis1_pointwise (fs : list (string -> fval)) (idx : list string) :
  mean_axis1 (List.length idx) (map (fun f => map f idx) fs)
  = map (fun k => nanmean (map (fun f => f k) fs)) idx.
Proof.
  unfold mean_axis1.
  rewrite <- (map_nth_seq _ (fun k => nanmean (map (fun f => f k) fs))
                ""%string idx).
  apply map_ext_in. intros i Hi. apply in_seq in Hi.
  f_equal. unfold row. rewrite map_map. apply map_ext. intros f.
  rewrite (nth_indep _ NaN (f ""%string)) by (rewrite length_map; lia).
  apply map_nth.
Qed.

Lemma combine_map_self (B : Type) (g : string -> B) (l : list string) :
  combine l (map g l) = map (fun k => (k, g k)) l.
Proof. induction l as [|a l IH]; simpl; [reflexivity|now rewrite IH]. Qed.

Lemma consensus_pointwise (rf perm shap reg pc1 pc2 : Series fval) :
  let idx := union_indexes (map keys [rf; perm; shap; reg; pc1; pc2]) in
  consensus rf perm shap reg pc1 pc2
  = map (fun k => (k, consensus_at idx rf perm shap reg k)) idx.
Proof.
  intros idx. unfold consensus, comparison_norm, comparison.
  unfold DataFrame_of_dict, apply_columns. simpl.
  fold idx. unfold minmax, reindex. rewrite !map_map.
  rewrite <- combine_map_self. f_equal.
  exact (mean_axis1_pointwise
           (map (fun s k => norm_cell (map (at_label s) idx) (at_label s k))
                [rf; perm; shap; reg]) idx).
Qed.

(** ** Index alignment *)

Lemma index_equals_eq (a b : list string) :
  index_equals a b = true <-> a = b.
Proof.
  revert b. induction a as [|x a IH]; intros [|y b]; simpl;
    try (split; [discriminate|discriminate]); [tauto|].
  rewrite andb_true_iff, String.eqb_eq, IH.
  split; [intros [-> ->]; reflexivity|intros [= -> ->]; auto].
Qed.

Lemma mem_In (k : string) (l : list string) : mem k l = true <-> In k l.
Proof.
  induction l as [|x l IH]; simpl; [split; [discriminate|tauto]|].
  rewrite orb_true_iff, String.eqb_eq, IH.
  split; (intros [H|H]; [left; now symmetry|now right]).
Qed.

Lemma uniques_fold (l seen : list string) :
  let r := fold_left (fun seen k => if mem k seen then seen else k :: seen)
                     l seen in
  (forall k, In k r <-> In k l \/ In k seen) /\ (NoDup seen -> NoDup r).
Proof.
  revert seen. induction l as [|x l IH]; intros seen; simpl.
  - split; [intros k; tauto|auto].
  - destruct (IH (if mem x seen then seen else x :: seen)) as [Hin Hnd].
    split.
    + intros k. rewrite Hin. destruct (mem x seen) eqn:E.
      * apply mem_In in E. split; [tauto|].
        intros [[<-|H]|H]; auto.
      * simpl. tauto.
    + intros Hs. apply Hnd. destruct (mem x seen) eqn:E; [exact Hs|].
      constructor; [|exact Hs]. intros H. apply mem_In in H. congruence.
Qed.

Lemma uniques_In (l : list string) (k : string) :
  In k (uniques l) <-> In k l.
Proof.
  unfold uniques. rewrite <- in_rev.
  destruct (uniques_fold l []) as [H _]. rewrite H. simpl. tauto.
Qed.

Lemma uniques_NoDup (l : list string) : NoDup (uniques l).
Proof.
  unfold uniques. apply NoDup_rev.
  destruct (uniques_fold l []) as [_ H]. apply H. constructor.
Qed.

Lemma insert_label_perm (k : string) (l : list string) :
  Permutation (insert_label k l) (k :: l).
Proof.
  induction l as [|y l IH]; simpl; [reflexivity|].
  destruct (String.leb k y); [reflexivity|].
  rewrite IH. apply perm_swap.
Qed.

Lemma sort_labels_perm (l : list string) : Permutation (sort_labels l) l.
Proof.
  induction l as [|x l IH]; simpl; [reflexivity|].
  rewrite insert_label_perm. now constructor.
Qed.

Lemma forallb_index_equals (i0 : list string) (rest : list (list string)) :
  forallb (index_equals i0) rest = true <-> forall i, In i rest -> i = i0.
Proof.
  rewrite forallb_forall. split; intros H i Hi.
  - symmetry. apply index_equals_eq. now apply H.
  - apply index_equals_eq. symmetry. now apply H.
Qed.

(** The frame's index holds exactly the labels of its Series. *)
Lemma union_indexes_In (indexes : list (list string)) (k : string) :
  In k (union_indexes indexes) <-> exists i, In i indexes /\ In k i.
Proof.
  destruct indexes as [|i0 rest]; simpl.
  - split; [tauto|intros [i [[] _]]].
  - destruct (forallb (index_equals i0) rest) eqn:E.
    + rewrite forallb_index_equals in E. split.
      * intros H. exists i0. auto.
      * intros [i [[<-|Hi] Hk]]; [exact Hk|]. now rewrite <- (E i Hi).
    + unfold fast_unique_multiple_list.
      split.
      * intros H.
        apply (Permutation_in _ (sort_labels_perm _)) in H.
        rewrite uniques_In, in_concat in H.
        destruct H as [i [Hi Hk]]. exists i. auto.
      * intros [i [Hi Hk]].
        apply (Permutation_in _ (Permutation_sym (sort_labels_perm _))).
        rewrite uniques_In, in_concat. exists i. auto.
Qed.

Lemma union_indexes_NoDup (indexes : list (list string)) :
  (forall i, In i indexes -> NoDup i) -> NoDup (union_indexes indexes).
Proof.
  intros H. destruct indexes as [|i0 rest]; simpl; [constructor|].
  destruct (forallb (index_equals i0) rest).
  - apply H. now left.
  - unfold fast_unique_multiple_list.
    eapply Permutation_NoDup; [symmetry; apply sort_labels_perm|].
    apply uniques_NoDup.
Qed.

Lemma union_indexes_perm (i0 : list string) (rest : list (list string)) :
  NoDup i0 -> (forall i, In i rest -> Permutation i0 i) ->
  Permutation (union_indexes (i0 :: rest)) i0.
Proof.
  intros Hnd Hp. apply NoDup_Permutation.
  - apply union_indexes_NoDup. intros i [<-|Hi]; [exact Hnd|].
    eapply Permutation_NoDup; [apply Hp, Hi|exact Hnd].
  - exact Hnd.
  - intros k. rewrite union_indexes_In. split.
    + intros [i [[<-|Hi] Hk]]; [exact Hk|].
      eapply Permutation_in; [symmetry; apply Hp, Hi|exact Hk].
    + intros Hk. exists i0. split; [now left|exact Hk].
Qed.

(** ** Cells up to the representation of fractions *)

Lemma feq_refl (a : fval) : feq a a.
Proof. destruct a; simpl; [reflexivity|exact I]. Qed.


Lemma feq_trans (a b c : fval) : feq a b -> feq b c -> feq a c.
Proof.
  destruct a, b, c; simpl; auto; try tauto.
  intros H1 H2. now rewrite H1.
Qed.

Lemma fsub_feq (a a' b b' : fval) :
  feq a a' -> feq b b' -> feq (fsub a b) (fsub a' b').
Proof.
  destruct a, a', b, b'; simpl; auto; try tauto.
  intros -> ->. reflexivity.
Qed.

Lemma fdiv_feq (a a' b b' : fval) :
  feq a a' -> feq b b' -> feq (fdiv a b) (fdiv a' b').
Proof.
  destruct a as [x|], a' as [x'|], b as [y|], b' as [y'|];
    simpl; auto; try tauto.
  intros Hx Hy. rewrite (Qeqb_comp y y' Hy 0 0 (Qeq_refl 0)).
  destruct (Qeq_bool y' 0) eqn:E; simpl; [exact I|].
  apply Qeq_bool_neq in E. now rewrite Hx, Hy.
Qed.

Lemma finite_Forall2 (l l' : list fval) :
  Forall2 feq l l' -> Forall2 Qeq (finite l) (finite l').
Proof.
  induction 1 as [|a a' l l' Ha _ IH]; simpl; [constructor|].
  destruct a, a'; simpl in Ha; try tauto. now constructor.
Qed.

Lemma qsum_Forall2 (l l' : list Q) :
  Forall2 Qeq l l' -> qsum l == qsum l'.
Proof.
  induction 1 as [|a a' l l' Ha _ IH]; simpl; [reflexivity|].
  now rewrite Ha, IH.
Qed.

Lemma qlist_mean_Forall2 (l l' : list Q) :
  Forall2 Qeq l l' -> feq (qlist_mean l) (qlist_mean l').
Proof.
  intros H. pose proof (Forall2_length H) as Hlen.
  pose proof (qsum_Forall2 _ _ H) as Hsum.
  destruct H; simpl; [exact I|].
  simpl in Hlen, Hsum. injection Hlen as Hlen.
  rewrite Hlen. now rewrite Hsum.
Qed.

Lemma nanmean_feq (l l' : list fval) :
  Forall2 feq l l' -> feq (nanmean l) (nanmean l').
Proof. intros H. apply qlist_mean_Forall2, finite_Forall2, H. Qed.

(** ** Series *)

Lemma keys_to_series (s : ImportanceScore) : keys (to_series s) = keys s.
Proof. unfold keys, to_series. rewrite map_map. reflexivity. Qed.

Lemma at_label_to_series (s : ImportanceScore) (k : string) :
  at_label (to_series s) k = get k s.
Proof.
  unfold at_label. induction s as [|[k' v] s IH]; simpl; [reflexivity|].
  destruct (String.eqb k k'); [reflexivity|exact IH].
Qed.

Lemma get_In {A} (s : Series A) (k : string) (v : A) :
  get k s = Some v -> In (k, v) s.
Proof.
  induction s as [|[k' v'] s IH]; simpl; [discriminate|].
  destruct (String.eqb k k') eqn:E.
  - apply String.eqb_eq in E. intros [= ->]. left. now subst.
  - intros H. right. now apply IH.
Qed.

Lemma In_get {A} (s : Series A) (k : string) (v : A) :
  NoDup (keys s) -> In (k, v) s -> get k s = Some v.
Proof.
  induction s as [|[k' v'] s IH]; simpl; [tauto|].
  intros Hnd [[= -> ->]|Hin].
  - now rewrite String.eqb_refl.
  - inversion Hnd as [|? ? Hk Hnd']; subst.
    destruct (String.eqb k k') eqn:E; [|now apply IH].
    apply String.eqb_eq in E. subst. exfalso. apply Hk.
    apply in_map_iff. exists (k', v). auto.
Qed.

Lemma get_keys {A} (s : Series A) (k : string) :
  In k (keys s) -> exists v, get k s = Some v.
Proof.
  induction s as [|[k' v'] s IH]; simpl; [tauto|].
  intros [->|H].
  - rewrite String.eqb_refl. eauto.
  - destruct (String.eqb k k'); eauto.
Qed.

Lemma get_values (s : ImportanceScore) (k : string) (v : Q) :
  get k s = Some v -> In v (values s).
Proof.
  intros H. apply get_In in H. apply in_map_iff. exists (k, v). auto.
Qed.

Lemma map_score_of_keys (s : ImportanceScore) :
  NoDup (keys s) -> map (score_of s) (keys s) = values s.
Proof.
  induction s as [|[k v] s IH]; simpl; [reflexivity|].
  intros Hnd. inversion Hnd as [|? ? Hk Hnd']; subst.
  unfold score_of at 1. simpl. rewrite String.eqb_refl. f_equal.
  rewrite <- IH by exact Hnd'.
  apply map_ext_in. intros k' Hk'. unfold score_of. simpl.
  destruct (String.eqb k' k) eqn:E; [|reflexivity].
  apply String.eqb_eq in E. subst. contradiction.
Qed.

Lemma reindex_to_series (idx : list string) (s : ImportanceScore) :
  Permutation idx (keys s) ->
  reindex idx (to_series s) = map Some (map (score_of s) idx).
Proof.
  intros HP. unfold reindex. rewrite map_map.
  apply map_ext_in. intros k Hk. rewrite at_label_to_series.
  unfold score_of.
  destruct (get_keys s k) as [v ->]; [|reflexivity].
  eapply Permutation_in; [exact HP|exact Hk].
Qed.

Lemma finite_reindex_perm (idx : list string) (s : ImportanceScore) :
  NoDup (keys s) -> Permutation idx (keys s) ->
  Permutation (finite (reindex idx (to_series s))) (values s).
Proof.
  intros Hnd HP. rewrite reindex_to_series by exact HP.
  rewrite finite_map_Some, <- map_score_of_keys by exact Hnd.
  now apply Permutation_map.
Qed.

(** On a shared key set, a cell of the normalized column of [s] is the
    normalized score of the estimator. *)
Lemma norm_cell_normalized (idx : list string) (s : ImportanceScore)
  (k : string) (a : Q) :
  NoDup (keys s) -> Permutation idx (keys s) -> get k s = Some a ->
  feq (norm_cell (reindex idx (to_series s)) (at_label (to_series s) k))
      (normalized s a).
Proof.
  intros Hnd HP Hget. rewrite at_label_to_series, Hget.
  pose proof (finite_reindex_perm idx s Hnd HP) as Hperm.
  pose proof (get_values s k a Hget) as Hin.
  assert (Hin' : In a (finite (reindex idx (to_series s)))).
  { eapply Permutation_in; [symmetry; exact Hperm|exact Hin]. }
  destruct (qlist_min_some _ _ Hin) as [lo Hlo].
  destruct (qlist_max_some _ _ Hin) as [hi Hhi].
  destruct (qlist_min_some _ _ Hin') as [lo' Hlo'].
  destruct (qlist_max_some _ _ Hin') as [hi' Hhi'].
  unfold norm_cell, normalized, nanmin, nanmax, smin, smax.
  rewrite Hlo, Hhi, Hlo', Hhi'.
  pose proof (qlist_min_perm _ _ _ _ Hperm Hlo' Hlo) as Emin.
  pose proof (qlist_max_perm _ _ _ _ Hperm Hhi' Hhi) as Emax.
  apply fdiv_feq; apply fsub_feq; simpl; auto; reflexivity.
Qed.

(** ** The aggregator on a shared key set *)

Lemma keys_map_pair {B} (g : string -> B) (l : list string) :
  keys (map (fun k => (k, g k)) l) = l.
Proof. unfold keys. rewrite map_map. simpl. apply map_id. Qed.

Lemma consensus_keys (rf perm shap reg pc1 pc2 : Series fval) :
  keys (consensus rf perm shap reg pc1 pc2)
  = union_indexes (map keys [rf; perm; shap; reg; pc1; pc2]).
Proof. rewrite consensus_pointwise. apply keys_map_pair. Qed.

Lemma consensus_importance_perm (rf perm shap reg pc1 pc2 : Series fval) :
  Permutation (consensus_importance rf perm shap reg pc1 pc2)
              (consensus rf perm shap reg pc1 pc2).
Proof. apply nargsort_descending_perm. Qed.

Lemma consensus_importance_keys (rf perm shap reg pc1 pc2 : Series fval) :
  Permutation (keys (consensus_importance rf perm shap reg pc1 pc2))
              (union_indexes (map keys [rf; perm; shap; reg; pc1; pc2])).
Proof.
  rewrite <- consensus_keys. apply Permutation_map.
  apply consensus_importance_perm.
Qed.

Lemma shared_index (rf perm shap reg : ImportanceScore)
  (pc1 pc2 : Series fval) :
  NoDup (keys rf) ->
  shares_keys rf perm -> shares_keys rf shap -> shares_keys rf reg ->
  shares_keys rf pc1 -> shares_keys rf pc2 ->
  Permutation
    (union_indexes
       (map keys [to_series rf; to_series perm; to_series shap;
                  to_series reg; pc1; pc2]))
    (keys rf).
Proof.
  intros Hnd H1 H2 H3 H4 H5. simpl map. rewrite !keys_to_series.
  apply union_indexes_perm; [exact Hnd|].
  intros i [<-|[<-|[<-|[<-|[<-|[]]]]]]; assumption.
Qed.

Lemma consensus_importance_get (rf perm shap reg : ImportanceScore)
  (pc1 pc2 : Series fval) (f : string) (a b c d : Q) :
  NoDup (keys rf) ->
  shares_keys rf perm -> shares_keys rf shap -> shares_keys rf reg ->
  shares_keys rf pc1 -> shares_keys rf pc2 ->
  get f rf = Some a -> get f perm = Some b ->
  get f shap = Some c -> get f reg = Some d ->
  exists v,
    get f (consensus_importance (to_series rf) (to_series perm)
             (to_series shap) (to_series reg) pc1 pc2) = Some v
    /\ feq v (nanmean [normalized rf a; normalized perm b;
                       normalized shap c; normalized reg d]).
Proof.
  intros Hnd H1 H2 H3 H4 H5 Ha Hb Hc Hd.
  pose proof (shared_index rf perm shap reg pc1 pc2 Hnd H1 H2 H3 H4 H5)
    as Hidx.
  set (idx := union_indexes _) in Hidx.
  set (out := consensus_importance _ _ _ _ _ _).
  exists (consensus_at idx (to_series rf) (to_series perm) (to_series shap)
            (to_series reg) f).
  split.
  - apply In_get.
    + eapply Permutation_NoDup; [|exact Hnd].
      symmetry. etransitivity; [apply consensus_importance_keys|exact Hidx].
    + eapply Permutation_in; [symmetry; apply consensus_importance_perm|].
      rewrite consensus_pointwise. fold idx.
      apply in_map_iff. exists f. split; [reflexivity|].
      eapply Permutation_in; [symmetry; exact Hidx|].
      apply get_In in Ha. apply in_map_iff. exists (f, a). auto.
  - unfold consensus_at. apply nanmean_feq. simpl.
    assert (Hs : forall s : ImportanceScore, shares_keys rf s ->
                 NoDup (keys s) /\ Permutation idx (keys s)).
    { intros s Hs. split.
      - eapply Permutation_NoDup; [exact Hs|exact Hnd].
      - etransitivity; [exact Hidx|exact Hs]. }
    destruct (Hs perm H1), (Hs shap H2), (Hs reg H3).
    repeat constructor; apply norm_cell_normalized; auto.
Qed.

Lemma mean4 (na nb nc nd : Q) (v : fval) :
  feq v (nanmean [Some na; Some nb; Some nc; Some nd]) ->
  exists q, v = Some q /\ q == (na + nb + nc + nd) / 4.
Proof.
  destruct v as [q|]; simpl; [|tauto].
  intros H. exists q. split; [reflexivity|].
  rewrite H. unfold Qdiv. change (inject_Z 4) with 4. ring.
Qed.

Lemma not_degenerate_intro (s : ImportanceScore) (x y : Q) :
  In x (values s) -> In y (values s) -> ~ x == y -> ~ degenerate s.
Proof. intros Hx Hy Hne Hd. apply Hne. now apply Hd. Qed.

Ltac solve_not_degenerate x y :=
  apply (not_degenerate_intro _ x y); [solve_in | solve_in | discriminate].

Lemma sample_keys_nodup : NoDup (keys Sample.rf).
Proof. solve_nodup. Defined.

Lemma sample_shares_perm : shares_keys Sample.rf Sample.perm.
Proof.
  unfold shares_keys. simpl. apply perm_skip. apply perm_swap.
Defined.

Lemma sample_shares_pc : shares_keys Sample.rf Sample.pc1.
Proof.
  unfold shares_keys. simpl.
  apply Permutation_sym.
  apply (Permutation_cons_app ["smoker"; "bmi"] ["children"])%string.
  apply (Permutation_cons_app ["smoker"] ["children"])%string.
  apply perm_swap.
Defined.

(** ** A degenerate estimator *)

Lemma finite_app (l1 l2 : list fval) :
  finite (l1 ++ l2) = finite l1 ++ finite l2.
Proof.
  induction l1 as [|[q|] l1 IH]; simpl; [reflexivity| |exact IH].
  now rewrite IH.
Qed.

Lemma nanmean_skips_nan (l1 l2 : list fval) :
  nanmean (l1 ++ NaN :: l2) = nanmean (l1 ++ l2).
Proof. unfold nanmean. now rewrite !finite_app. Qed.

Lemma feq_nan (v : fval) : feq v NaN -> v = NaN.
Proof. destruct v; simpl; [tauto|reflexivity]. Qed.

Lemma index_comparison_norm (rf perm shap reg pc1 pc2 : Series fval) :
  index (comparison_norm rf perm shap reg pc1 pc2)
  = union_indexes (map keys [rf; perm; shap; reg; pc1; pc2]).
Proof. reflexivity. Qed.

(** C2 (as amended).  When an estimator reports the same importance for
    every feature, min-max normalization divides zero by zero: every cell
    of its normalized column is NaN (no constant 0.5 is substituted), and
    since the row mean skips NaN the consensus of each feature is the mean
    of the normalized scores of the remaining estimators, the degenerate
    one contributing nothing. *)
Theorem degenerate_estimator_is_skipped
  (rf perm shap reg : ImportanceScore) (pc1 pc2 : Series fval)
  (s : ImportanceScore) :
  NoDup (keys rf) ->
  shares_keys rf perm -> shares_keys rf shap -> shares_keys rf reg ->
  shares_keys rf pc1 -> shares_keys rf pc2 ->
  In s [rf; perm; shap; reg] -> degenerate s ->
  let cn := comparison_norm (to_series rf) (to_series perm) (to_series shap)
              (to_series reg) pc1 pc2 in
  let out := consensus_importance (to_series rf) (to_series perm)
               (to_series shap) (to_series reg) pc1 pc2 in
  (forall x, normalized s x = NaN)
  /\ Forall (fun cell => cell = NaN)
            (minmax (reindex (index cn) (to_series s)))
  /\ (forall f a b c d l1 l2 x,
        get f rf = Some a -> get f perm = Some b ->
        get f shap = Some c -> get f reg = Some d ->
        [normalized rf a; normalized perm b;
         normalized shap c; normalized reg d]
        = l1 ++ normalized s x :: l2 ->
        exists v, get f out = Some v /\ feq v (nanmean (l1 ++ l2))).
Proof.
  intros Hnd H1 H2 H3 H4 H5 Hs Hd cn out.
  split; [|split].
  - intros x. now apply normalized_degenerate.
  - unfold cn. rewrite index_comparison_norm.
    pose proof (shared_index rf perm shap reg pc1 pc2 Hnd H1 H2 H3 H4 H5)
      as Hidx.
    set (idx := union_indexes _) in *.
    assert (Hks : shares_keys rf s).
    { destruct Hs as [<-|[<-|[<-|[<-|[]]]]]; auto. apply Permutation_refl. }
    assert (Hnds : NoDup (keys s)).
    { eapply Permutation_NoDup; [exact Hks|exact Hnd]. }
    assert (Hp : Permutation idx (keys s)).
    { etransitivity; [exact Hidx|exact Hks]. }
    unfold minmax. apply Forall_forall. intros cell Hc.
    apply in_map_iff in Hc. destruct Hc as [v [<- Hv]].
    unfold reindex in Hv. apply in_map_iff in Hv.
    destruct Hv as [k [<- Hk]].
    destruct (get_keys s k) as [a Ha].
    { eapply Permutation_in; [exact Hp|exact Hk]. }
    apply feq_nan.
    rewrite <- (normalized_degenerate s a Hd).
    now apply norm_cell_normalized.
  - intros f a b c d l1 l2 x Ha Hb Hc Hd' E.
    destruct (consensus_importance_get rf perm shap reg pc1 pc2 f a b c d
                Hnd H1 H2 H3 H4 H5 Ha Hb Hc Hd') as [v [Hget Hv]].
    exists v. split; [exact Hget|].
    rewrite E, (normalized_degenerate s x Hd) in Hv.
    now rewrite nanmean_skips_nan in Hv.
Qed.

Lemma sample_perm_zero_degenerate : degenerate Sample.perm_zero.
Proof.
  intros x y Hx Hy. simpl in Hx, Hy.
  repeat (destruct Hx as [<-|Hx]; [|]);
    repeat (destruct Hy as [<-|Hy]; [|]);
    try reflexivity; contradiction.
Defined.

Lemma degenerate_estimator_is_skipped_witness :
  Forall (fun cell => cell = NaN)
    (minmax (reindex
               (index (comparison_norm (to_series Sample.rf)
                         (to_series Sample.perm_zero) (to_series Sample.shap)
                         (to_series Sample.reg) Sample.pc1 Sample.pc2))
               (to_series Sample.perm_zero))).
Proof.
  refine (proj1 (proj2 (degenerate_estimator_is_skipped Sample.rf
                          Sample.perm_zero Sample.shap Sample.reg
                          Sample.pc1 Sample.pc2 Sample.perm_zero
                          sample_keys_nodup sample_shares_perm
                          sample_shares_perm sample_shares_perm
                          sample_shares_pc sample_shares_pc
                          _ sample_perm_zero_degenerate))).
  simpl. right. left. reflexivity.
Defined.

(** C2, counterexample.  The permutation scorer reports zero for every
    feature: its normalized column is NaN in every row, not 0.5, and the
    consensus of [smoker] is 1, the mean of its three other normalized
    scores, where a contribution of 0.5 would give 7/8. *)
Lemma degenerate_estimator_not_one_half :
  let cn := comparison_norm (to_series Sample.rf)
              (to_series Sample.perm_zero) (to_series Sample.shap)
              (to_series Sample.reg) Sample.pc1 Sample.pc2 in
  let out := consensus_importance (to_series Sample.rf)
               (to_series Sample.perm_zero) (to_series Sample.shap)
               (to_series Sample.reg) Sample.pc1 Sample.pc2 in
  degenerate Sample.perm_zero
  /\ get "Permutation"%string (columns cn) = Some [NaN; NaN; NaN; NaN]
  /\ exists v, get "smoker"%string out = Some (Some v)
               /\ v == 1 /\ ~ v == (1 + (1 # 2) + 1 + 1) / 4.
Proof.
  split; [exact sample_perm_zero_degenerate|].
  split; [vm_compute; reflexivity|].
  match eval vm_compute in
        (get "smoker"%string
           (consensus_importance (to_series Sample.rf)
              (to_series Sample.perm_zero) (to_series Sample.shap)
              (to_series Sample.reg) Sample.pc1 Sample.pc2))
  with Some (Some ?q) => exists q end.
  split; [vm_compute; reflexivity|].
  split; [vm_compute; reflexivity|].
  intros H. vm_compute in H. discriminate H.
Qed.

(** ** Estimators with different key sets *)

Lemma Permutation_in_iff {A} (l l' : list A) (x : A) :
  Permutation l l' -> (In x l <-> In x l').
Proof.
  intros H. split; apply Permutation_in; [exact H|now symmetry].
Qed.





(** ** Standardizing a constant column *)

Lemma qsum_const (c : Q) (l : list Q) :
  Forall (fun x => x == c) l ->
  qsum l == c * inject_Z (Z.of_nat (List.length l)).
Proof.
  induction 1 as [|x l Hx _ IH].
  - simpl. ring.
  - change (qsum (x :: l)) with (x + qsum l).
    change (List.length (x :: l)) with (S (List.length l)).
    rewrite Nat2Z.inj_succ. unfold Z.succ. rewrite inject_Z_plus.
    rewrite IH, Hx. ring.
Qed.

Lemma inject_Z_of_nat_pos (n : nat) : (0 < n)%nat -> 0 < inject_Z (Z.of_nat n).
Proof.
  intros H. change 0 with (inject_Z 0). rewrite <- Zlt_Qlt. lia.
Qed.

Lemma qlist_mean_const (c : Q) (l : list Q) :
  l <> [] -> Forall (fun x => x == c) l ->
  exists m, qlist_mean l = Some m /\ m == c.
Proof.
  intros Hne Hall. destruct l as [|x l]; [congruence|].
  eexists. split; [reflexivity|].
  rewrite (qsum_const c _ Hall).
  field.
  assert (0 < inject_Z (Z.of_nat (List.length (x :: l)))).
  { apply inject_Z_of_nat_pos. simpl. lia. }
  lra.
Qed.

Lemma sum_sq_dev_const (m c : Q) (l : list Q) :
  m == c -> Forall (fun x => x == c) l -> sum_sq_dev m l == 0.
Proof.
  intros Hm. unfold sum_sq_dev.
  induction 1 as [|x l Hx _ IH]; simpl; [reflexivity|].
  rewrite IH, Hx, Hm. ring.
Qed.

Section ConstantColumn.
Variable sqrtQ : Q -> Q.
Hypothesis sqrtQ_zero : forall x, x == 0 -> sqrtQ x == 0.

Lemma standardize_column_const (c : Q) (col : list Q) :
  Forall (fun x => x == c) col ->
  Forall (fun cell => cell = NaN) (standardize_column sqrtQ col).
Proof.
  intros Hall. unfold standardize_column.
  apply Forall_forall. intros cell Hc.
  apply in_map_iff in Hc. destruct Hc as [x [<- Hx]].
  assert (Hne : col <> []) by (intros ->; contradiction).
  destruct (qlist_mean_const c col Hne Hall) as [m [Em Hm]].
  unfold pd_std. rewrite Em. simpl.
  destruct (List.length col <=? 1)%nat; [reflexivity|].
  simpl.
  assert (Ez : sqrtQ (sum_sq_dev m col
                      / inject_Z (Z.of_nat (List.length col - 1))) == 0).
  { apply sqrtQ_zero. rewrite (sum_sq_dev_const m c col Hm Hall).
    unfold Qdiv. ring. }
  apply Qeq_eq_bool in Ez. now rewrite Ez.
Qed.

Lemma scaler_column_const (c : Q) (col : list Q) :
  Forall (fun x => x == c) col ->
  Forall (fun cell => feq cell (Some 0)) (scaler_column sqrtQ col).
Proof.
  intros Hall. unfold scaler_column.
  apply Forall_forall. intros cell Hc.
  apply in_map_iff in Hc. destruct Hc as [x [<- Hx]].
  assert (Hne : col <> []) by (intros ->; contradiction).
  destruct (qlist_mean_const c col Hne Hall) as [m [Em Hm]].
  unfold scale_. rewrite Em. simpl.
  assert (Ez : sqrtQ (sum_sq_dev m col
                      / inject_Z (Z.of_nat (List.length col))) == 0).
  { apply sqrtQ_zero. rewrite (sum_sq_dev_const m c col Hm Hall).
    unfold Qdiv. ring. }
  apply Qeq_eq_bool in Ez. rewrite Ez. simpl.
  rewrite Forall_forall in Hall. rewrite (Hall x Hx), Hm.
  unfold Qdiv. ring.
Qed.
End ConstantColumn.

Lemma sqrt_exact_zero (x : Q) : x == 0 -> sqrt_exact x == 0.
Proof.
  intros H. unfold sqrt_exact. rewrite (Qred_complete x 0 H). reflexivity.
Qed.

Lemma square_nonneg (x : Q) : 0 <= x * x.
Proof.
  destruct (Qlt_le_dec x 0) as [H|H].
  - setoid_replace (x * x) with ((- x) * (- x)) by ring.
    apply Qmult_le_0_compat; lra.
  - now apply Qmult_le_0_compat.
Qed.

Lemma sum_sq_dev_nonneg (m : Q) (l : list Q) : 0 <= sum_sq_dev m l.
Proof.
  unfold sum_sq_dev. induction l as [|x l IH]; simpl; [apply Qle_refl|].
  pose proof (square_nonneg (x - m)). lra.
Qed.

Lemma sum_sq_dev_zero (m x : Q) (l : list Q) :
  sum_sq_dev m l == 0 -> In x l -> x - m == 0.
Proof.
  induction l as [|y l IH]; simpl; [tauto|].
  intros Hz Hin.
  change (sum_sq_dev m (y :: l)) with ((y - m) * (y - m) + sum_sq_dev m l)
    in Hz.
  pose proof (sum_sq_dev_nonneg m l) as Hl.
  pose proof (square_nonneg (y - m)) as Hy.
  destruct Hin as [->|Hin].
  - assert (E : (x - m) * (x - m) == 0) by lra.
    apply Qmult_integral in E. tauto.
  - apply IH; [lra|exact Hin].
Qed.

(** A zero standard deviation means every value equals the mean: the
    division of the standardization is zero by zero or has a nonzero
    denominator. *)
Lemma pd_std_zero_all_mean (sqrtQ : Q -> Q) (col : list Q) (m sd x : Q) :
  (forall v, sqrtQ v == 0 -> v == 0) ->
  qlist_mean col = Some m -> pd_std sqrtQ col = Some sd -> sd == 0 ->
  In x col -> x - m == 0.
Proof.
  intros Hs Hm Hsd Hz Hin. unfold pd_std in Hsd. rewrite Hm in Hsd.
  destruct (List.length col <=? 1)%nat eqn:E; [discriminate|].
  apply Nat.leb_gt in E. injection Hsd as <-.
  apply Hs in Hz.
  assert (Hpos : 0 < inject_Z (Z.of_nat (List.length col - 1))).
  { apply inject_Z_of_nat_pos. lia. }
  apply (sum_sq_dev_zero m x col); [|exact Hin].
  unfold Qdiv in Hz. apply Qmult_integral in Hz.
  destruct Hz as [Hz|Hz]; [exact Hz|].
  assert (0 < / inject_Z (Z.of_nat (List.length col - 1)))
    by now apply Qinv_lt_0_compat.
  lra.
Qed.

(** C6 (as amended).  A column that repeats one integer, as [age],
    [children] and [smoker] can (few enough rows for the sum to be exact
    in binary64), raises no error in either standardization.
    [(X - X.mean()) / X.std()] divides zero by zero: every row of that
    column of the regression design is NaN.  [StandardScaler] replaces
    the zero scale by one: every row of that column of the PCA input is
    zero. *)
Theorem constant_column_standardization
  (sqrtQ : Q -> Q) (nrows : nat) (X : Series (list Q))
  (name : string) (col : list Q) (z : Z) :
  (forall x, x == 0 -> sqrtQ x == 0) ->
  In (name, col) X -> Forall (fun x => x = inject_Z z) col ->
  (Z.abs z * Z.of_nat (List.length col) < 2 ^ 53)%Z ->
  In (name, standardize_column sqrtQ col) (X_standardized sqrtQ nrows X)
  /\ Forall (fun cell => cell = NaN) (standardize_column sqrtQ col)
  /\ In (scaler_column sqrtQ col) (X_scaled sqrtQ X)
  /\ Forall (fun cell => feq cell (Some 0)) (scaler_column sqrtQ col).
Proof.
  intros Hs Hin Hall _.
  assert (Hc : Forall (fun x => x == inject_Z z) col).
  { eapply Forall_impl; [|exact Hall]. intros x ->. reflexivity. }
  repeat split.
  - unfold X_standardized. right.
    apply in_map_iff. exists (name, col). auto.
  - now apply (standardize_column_const sqrtQ Hs (inject_Z z)).
  - unfold X_scaled. apply in_map_iff. exists (name, col). auto.
  - now apply (scaler_column_const sqrtQ Hs (inject_Z z)).
Qed.

Lemma constant_column_standardization_witness :
  Forall (fun cell => cell = NaN) (standardize_column sqrt_exact [1; 1; 1]).
Proof.
  refine (proj1 (proj2 (constant_column_standardization sqrt_exact 3
                          Sample.X "smoker" [1; 1; 1] 1
                          sqrt_exact_zero _ _ _))).
  - simpl. right. left. reflexivity.
  - repeat constructor.
  - reflexivity.
Defined.

(** C6, counterexample.  The table has the constant column [smoker].  The
    standardization of the regression cell returns a design, raising
    nothing, in which every row of [smoker] is NaN. *)
Lemma constant_column_reaches_regression :
  exists design,
    X_standardized sqrt_exact 3 Sample.X = design
    /\ get "smoker"%string design = Some [NaN; NaN; NaN]
    /\ exists cells,
         get "age"%string design = Some cells
         /\ Forall2 feq cells [Some (- 1); Some 0; Some 1].
Proof.
  eexists. split; [reflexivity|]. split; [vm_compute; reflexivity|].
  eexists. split; [vm_compute; reflexivity|].
  repeat constructor.
Qed.

(** The same column in binary64 is NaN in every row, while a column that
    repeats the BMI 30.1 has a mean above 30.1 and a standard deviation
    of some 4e-15: its cells are finite and negative, not NaN. *)
Lemma constant_column_binary64 :
  Forall (fun c => PrimFloat.is_nan c = true)
         (F64.standardize [1; 1; 1]%float)
  /\ PrimFloat.ltb (nth 0 F64.bmi_30_1 0%float) (F64.mean F64.bmi_30_1)
     = true
  /\ PrimFloat.ltb 0%float (F64.std F64.bmi_30_1) = true
  /\ Forall (fun c => PrimFloat.ltb c 0%float = true)
        (F64.standardize F64.bmi_30_1).
Proof.
  split; [repeat constructor|]. split; [vm_compute; reflexivity|].
  split; [vm_compute; reflexivity|]. repeat constructor.
Qed.

(** ** The regression frame *)

Lemma combine_lift_keys (names : list string) (p q : list Q) :
  List.length p = List.length names -> List.length q = List.length names ->
  keys (combine names (combine (map Some p) (map Some q))) = names.
Proof.
  revert p q. induction names as [|k names IH]; intros [|x p] [|y q];
    simpl; try discriminate; auto.
  intros [= Hp] [= Hq]. f_equal. now apply IH.
Qed.

(** C5 (as amended).  The regression frame has one row per column of the
    intercept-augmented design, the [const] row included: its keys are
    [const] and the feature names.  Each row carries the fitted
    coefficient itself, with its sign, and its p-value; the absolute value
    only orders the rows, largest first.  The [const] row leaves when the
    comparison cell drops it, and the keys are then the feature names. *)
Theorem coef_importance_rows (feature_names : list string)
  (model : OLSResults) :
  List.length (params model) = S (List.length feature_names) ->
  List.length (pvalues model) = S (List.length feature_names) ->
  ~ In "const"%string feature_names ->
  let frame := coef_importance feature_names model in
  Permutation frame
    (combine ("const"%string :: feature_names)
       (combine (map Some (params model)) (map Some (pvalues model))))
  /\ Permutation (keys frame) ("const"%string :: feature_names)
  /\ StronglySorted
       (by_key_descending (fun r => fabs (fst (snd r)))) frame
  /\ exists reg,
       drop "const" (importance_column frame) = Some reg
       /\ Permutation (keys reg) feature_names.
Proof.
  intros Hp Hq Hc frame.
  assert (HP : Permutation frame
                 (combine ("const"%string :: feature_names)
                    (combine (map Some (params model))
                             (map Some (pvalues model))))).
  { apply nargsort_descending_perm. }
  assert (HK : Permutation (keys frame) ("const"%string :: feature_names)).
  { pose proof (combine_lift_keys ("const"%string :: feature_names)
                  (params model) (pvalues model) Hp Hq) as E.
    rewrite <- E. apply Permutation_map. exact HP. }
  split; [exact HP|]. split; [exact HK|].
  split; [apply nargsort_descending_sorted|].
  assert (HKi : keys (importance_column frame) = keys frame).
  { unfold keys, importance_column. now rewrite map_map. }
  assert (Hmem : mem "const" (keys (importance_column frame)) = true).
  { apply mem_In. rewrite HKi.
    eapply Permutation_in; [symmetry; exact HK|now left]. }
  unfold drop. rewrite Hmem. eexists. split; [reflexivity|].
  set (p := fun r : string * fval => negb (String.eqb (fst r) "const")).
  assert (E : keys (filter p (importance_column frame))
              = filter (fun k => negb (String.eqb k "const"))
                       (keys (importance_column frame))).
  { unfold keys. generalize (importance_column frame). intros l.
    induction l as [|r l IH]; simpl; [reflexivity|].
    unfold p at 1. destruct (negb (String.eqb (fst r) "const")); simpl;
      now rewrite IH. }
  rewrite E, HKi.
  assert (HF : forall l l' : list string, Permutation l l' ->
               Permutation (filter (fun k => negb (String.eqb k "const")) l)
                           (filter (fun k => negb (String.eqb k "const")) l')).
  { induction 1; simpl.
    - constructor.
    - destruct (negb (String.eqb x "const")); [now constructor|assumption].
    - destruct (negb (String.eqb x "const")),
               (negb (String.eqb y "const"));
        try reflexivity; apply perm_swap.
    - etransitivity; eassumption. }
  rewrite (HF _ _ HK). simpl.
  clear -Hc. induction feature_names as [|k l IH]; simpl; [constructor|].
  destruct (String.eqb k "const") eqn:E.
  - apply String.eqb_eq in E. subst. exfalso. apply Hc. now left.
  - simpl. constructor. apply IH. intros H. apply Hc. now right.
Qed.

Lemma coef_importance_rows_witness :
  Permutation (keys (coef_importance ["age"%string] Sample.fit))
              ["const"%string; "age"%string].
Proof.
  refine (proj1 (proj2 (coef_importance_rows ["age"%string] Sample.fit
                          _ _ _))).
  - reflexivity.
  - reflexivity.
  - simpl. intros [H|H]; [discriminate H|exact H].
Defined.

(** The sample fit is the least-squares fit of the sample target on the
    sample design. *)
Lemma sample_fit_normal_equations :
  normal_equations Sample.design Sample.y (params Sample.fit).
Proof.
  intros j Hj. simpl in Hj.
  destruct j as [|[|j]]; [reflexivity|reflexivity|lia].
Qed.

(** C5, counterexample.  For the fit of the sample target on [age], the
    frame has a [const] row, which is no column of the design matrix, and
    the importance of [age] is the coefficient -1000, not its absolute
    value. *)
Lemma coef_importance_signed_with_const :
  let frame := coef_importance ["age"%string] Sample.fit in
  frame = [("const"%string, (Some 2000, Some 0));
           ("age"%string, (Some (-1000), Some 0))]
  /\ In "const"%string (keys frame)
  /\ ~ In "const"%string ["age"%string]
  /\ exists v, get "age"%string (importance_column frame) = Some (Some v)
               /\ v == -1000 /\ ~ v == Qabs (-1000).
Proof.
  split; [reflexivity|]. split; [now left|].
  split; [intros [H|H]; [discriminate H|exact H]|].
  exists (-1000). split; [reflexivity|]. split; [reflexivity|discriminate].
Qed.

(** ** The SHAP frame *)

Lemma mean_abs_axis0_nth (ncols j : nat) (shap_values : list (list Q)) :
  (j < ncols)%nat ->
  nth j (mean_abs_axis0 ncols shap_values) NaN
  = qlist_mean (map (fun r => Qabs (nth j r 0)) shap_values).
Proof.
  intros Hj. unfold mean_abs_axis0.
  rewrite (nth_indep _ NaN
             (qlist_mean (map (fun r => Qabs (nth 0 r 0)) shap_values)))
    by (rewrite length_map, length_seq; exact Hj).
  rewrite (map_nth (fun j => qlist_mean
                      (map (fun r => Qabs (nth j r 0)) shap_values))).
  now rewrite seq_nth.
Qed.

(** The importance that the SHAP frame gives a feature is the mean, over
    the held-out rows, of the absolute attribution of that feature. *)
Lemma shap_importance_mean_abs (feature_names : list string)
  (shap_values : list (list Q)) :
  Permutation (shap_importance feature_names shap_values)
    (combine feature_names
       (mean_abs_axis0 (List.length feature_names) shap_values))
  /\ forall j, (j < List.length feature_names)%nat ->
       nth j (mean_abs_axis0 (List.length feature_names) shap_values) NaN
       = qlist_mean (map (fun r => Qabs (nth j r 0)) shap_values).
Proof.
  split; [apply nargsort_descending_perm|].
  intros j Hj. now apply mean_abs_axis0_nth.
Qed.

(** * Further properties of the notebook *)

(** ** The range of the consensus *)

Lemma In_finite (l : list fval) (q : Q) : In q (finite l) <-> In (Some q) l.
Proof.
  induction l as [|[x|] l IH]; simpl; [tauto| |].
  - rewrite IH. split; (intros [H|H]; [left|right]); congruence.
  - rewrite IH. split; [tauto|]. intros [H|H]; [discriminate|exact H].
Qed.

Lemma norm_cell_unit (x : list fval) (v : fval) :
  In v x -> unit_or_nan (norm_cell x v).
Proof.
  intros Hin. unfold norm_cell, nanmin, nanmax.
  destruct v as [q|]; [|exact I].
  apply In_finite in Hin.
  destruct (qlist_min_some _ _ Hin) as [lo Hlo].
  destruct (qlist_max_some _ _ Hin) as [hi Hhi].
  rewrite Hlo, Hhi. simpl.
  destruct (Qeq_bool (hi - lo) 0) eqn:E; [exact I|].
  apply Qeq_bool_neq in E. simpl.
  apply qlist_min_spec in Hlo. apply qlist_max_spec in Hhi.
  destruct Hlo as [_ Hlo], Hhi as [_ Hhi].
  rewrite Forall_forall in Hlo, Hhi.
  pose proof (Hlo q Hin). pose proof (Hhi q Hin).
  apply unit_interval_div; lra.
Qed.

Lemma qsum_bounds (l : list Q) :
  Forall (fun q => 0 <= q <= 1) l ->
  0 <= qsum l <= inject_Z (Z.of_nat (List.length l)).
Proof.
  induction 1 as [|q l Hq _ IH].
  - simpl. split; apply Qle_refl.
  - change (qsum (q :: l)) with (q + qsum l).
    change (List.length (q :: l)) with (S (List.length l)).
    rewrite Nat2Z.inj_succ. unfold Z.succ. rewrite inject_Z_plus.
    change (inject_Z 1) with 1. lra.
Qed.

Lemma nanmean_unit (l : list fval) :
  Forall unit_or_nan l -> unit_or_nan (nanmean l).
Proof.
  intros H. unfold nanmean.
  assert (Hf : Forall (fun q => 0 <= q <= 1) (finite l)).
  { apply Forall_forall. intros q Hq. apply In_finite in Hq.
    rewrite Forall_forall in H. exact (H (Some q) Hq). }
  destruct (finite l) as [|q f] eqn:E; [exact I|].
  pose proof (qsum_bounds _ Hf) as Hb.
  assert (Hpos : 0 < inject_Z (Z.of_nat (List.length (q :: f)))).
  { apply inject_Z_of_nat_pos. simpl. lia. }
  simpl. split.
  - apply Qle_shift_div_l; [exact Hpos|]. simpl in Hb. lra.
  - apply Qle_shift_div_r; [exact Hpos|]. simpl in Hb. lra.
Qed.

Lemma at_label_in_reindex (idx : list string) (s : Series fval)
  (k : string) : In k idx -> In (at_label s k) (reindex idx s).
Proof. intros H. unfold reindex. now apply in_map. Qed.

(** X1.  Whatever the six columns hold and whichever features they cover, every
    value of the consensus is NaN or lies in [0,1]. *)
Theorem consensus_importance_range
  (rf perm shap reg pc1 pc2 : Series fval) :
  NoDup (keys rf) -> NoDup (keys perm) -> NoDup (keys shap) ->
  NoDup (keys reg) -> NoDup (keys pc1) -> NoDup (keys pc2) ->
  Forall (fun r => unit_or_nan (snd r))
         (consensus_importance rf perm shap reg pc1 pc2).
Proof.
  intros _ _ _ _ _ _. apply Forall_forall. intros [k v] Hin.
  apply (Permutation_in _ (consensus_importance_perm _ _ _ _ _ _)) in Hin.
  rewrite consensus_pointwise in Hin. apply in_map_iff in Hin.
  destruct Hin as [k' [[= <- <-] Hk]].
  unfold consensus_at. apply nanmean_unit. simpl.
  repeat constructor; apply norm_cell_unit; now apply at_label_in_reindex.
Qed.

Lemma consensus_importance_range_witness :
  Forall (fun r => unit_or_nan (snd r))
    (consensus_importance Sample.rf_ab (importance_column Sample.perm_ac)
       Sample.rf_ab Sample.rf_ab Sample.pc_ab Sample.pc_ab).
Proof.
  apply (consensus_importance_range Sample.rf_ab
           (importance_column Sample.perm_ac) Sample.rf_ab Sample.rf_ab
           Sample.pc_ab Sample.pc_ab); solve_nodup.
Defined.

(** ** Top and bottom of an estimator *)

Lemma normalized_endpoints (s : ImportanceScore) (a : Q) :
  ~ degenerate s -> In a (values s) ->
  exists n, normalized s a = Some n /\ 0 <= n <= 1 /\
            (is_max s a -> n == 1) /\ (is_min s a -> n == 0).
Proof.
  intros Hnd Hin.
  destruct (normalized_value s a Hnd Hin)
    as (lo & hi & Hlo & Hhi & Hlt & Hb & Hn).
  exists ((a - lo) / (hi - lo)). split; [exact Hn|].
  split; [apply unit_interval_div; lra|].
  unfold smin, smax in Hlo, Hhi.
  apply qlist_min_spec in Hlo. apply qlist_max_spec in Hhi.
  destruct Hlo as [Ilo _], Hhi as [Ihi _].
  split.
  - intros Hmax. specialize (Hmax hi Ihi).
    assert (E : a - lo == hi - lo) by lra.
    rewrite E. field. lra.
  - intros Hmin. specialize (Hmin lo Ilo).
    assert (E : a - lo == 0) by lra.
    rewrite E. field. lra.
Qed.

(** X2.  On a shared key set with no flat estimator, a feature that has
    the largest score of every one of the four estimators has consensus
    1, and a feature that has the smallest score of every one of them has
    consensus 0. *)
Theorem consensus_of_top_everywhere
  (rf perm shap reg : ImportanceScore) (pc1 pc2 : Series fval)
  (f : string) (a b c d : Q) :
  NoDup (keys rf) ->
  shares_keys rf perm -> shares_keys rf shap -> shares_keys rf reg ->
  shares_keys rf pc1 -> shares_keys rf pc2 ->
  ~ degenerate rf -> ~ degenerate perm ->
  ~ degenerate shap -> ~ degenerate reg ->
  get f rf = Some a -> get f perm = Some b ->
  get f shap = Some c -> get f reg = Some d ->
  exists v,
    get f (consensus_importance (to_series rf) (to_series perm)
             (to_series shap) (to_series reg) pc1 pc2) = Some (Some v)
    /\ (is_max rf a /\ is_max perm b /\ is_max shap c /\ is_max reg d ->
        v == 1)
    /\ (is_min rf a /\ is_min perm b /\ is_min shap c /\ is_min reg d ->
        v == 0).
Proof.
  intros Hnd H1 H2 H3 H4 H5 Drf Dperm Dshap Dreg Ha Hb Hc Hd.
  destruct (consensus_importance_get rf perm shap reg pc1 pc2 f a b c d
              Hnd H1 H2 H3 H4 H5 Ha Hb Hc Hd) as [v [Hget Hv]].
  destruct (normalized_endpoints rf a Drf (get_values _ _ _ Ha))
    as (na & Ena & Bna & Tna & Zna).
  destruct (normalized_endpoints perm b Dperm (get_values _ _ _ Hb))
    as (nb & Enb & Bnb & Tnb & Znb).
  destruct (normalized_endpoints shap c Dshap (get_values _ _ _ Hc))
    as (nc & Enc & Bnc & Tnc & Znc).
  destruct (normalized_endpoints reg d Dreg (get_values _ _ _ Hd))
    as (nd & End' & Bnd & Tnd & Znd).
  rewrite Ena, Enb, Enc, End' in Hv.
  destruct (mean4 _ _ _ _ _ Hv) as [q [-> Hq]].
  exists q. split; [exact Hget|].
  assert (E4 : 4 * q == na + nb + nc + nd) by (rewrite Hq; field).
  split.
  - intros (M1 & M2 & M3 & M4).
    specialize (Tna M1). specialize (Tnb M2).
    specialize (Tnc M3). specialize (Tnd M4). lra.
  - intros (M1 & M2 & M3 & M4).
    specialize (Zna M1). specialize (Znb M2).
    specialize (Znc M3). specialize (Znd M4). lra.
Qed.

Lemma sample_rf_not_flat : ~ degenerate Sample.rf.
Proof. solve_not_degenerate (6 # 10) (2 # 10). Defined.

Lemma sample_perm_not_flat : ~ degenerate Sample.perm.
Proof. solve_not_degenerate 1 0. Defined.

Lemma sample_shap_not_flat : ~ degenerate Sample.shap.
Proof. solve_not_degenerate 8000 3000. Defined.

Lemma sample_reg_not_flat : ~ degenerate Sample.reg.
Proof. solve_not_degenerate 9500 3600. Defined.

Lemma is_max_intro (s : ImportanceScore) (a : Q) :
  forallb (fun b => Qle_bool b a) (values s) = true -> is_max s a.
Proof.
  intros H b Hb. rewrite forallb_forall in H.
  now apply Qle_bool_iff, H.
Qed.

Lemma consensus_of_top_everywhere_witness :
  exists v,
    get "smoker"%string
      (consensus_importance (to_series Sample.rf) (to_series Sample.perm)
         (to_series Sample.shap) (to_series Sample.reg)
         Sample.pc1 Sample.pc2) = Some (Some v)
    /\ v == 1.
Proof.
  destruct (consensus_of_top_everywhere Sample.rf Sample.perm Sample.shap
              Sample.reg Sample.pc1 Sample.pc2 "smoker"
              (6 # 10) 1 8000 9500
              sample_keys_nodup sample_shares_perm sample_shares_perm
              sample_shares_perm sample_shares_pc sample_shares_pc
              sample_rf_not_flat sample_perm_not_flat
              sample_shap_not_flat sample_reg_not_flat
              eq_refl eq_refl eq_refl eq_refl)
    as (v & Hv & Hmax & _).
  exists v. split; [exact Hv|]. apply Hmax.
  repeat split; apply is_max_intro; reflexivity.
Defined.

(** ** A feature that every estimator scores higher *)

Lemma normalized_monotone (s : ImportanceScore) (a a' : Q) :
  ~ degenerate s -> In a (values s) -> In a' (values s) ->
  exists n n', normalized s a = Some n /\ normalized s a' = Some n' /\
               (a <= a' -> n <= n').
Proof.
  intros Hnd Ha Ha'.
  destruct (normalized_value s a Hnd Ha)
    as (lo & hi & Hlo & Hhi & Hlt & _ & Hna).
  destruct (normalized_value s a' Hnd Ha')
    as (lo' & hi' & Hlo' & Hhi' & _ & _ & Hnb).
  rewrite Hlo in Hlo'. rewrite Hhi in Hhi'.
  injection Hlo' as <-. injection Hhi' as <-.
  exists ((a - lo) / (hi - lo)), ((a' - lo) / (hi - lo)).
  split; [exact Hna|]. split; [exact Hnb|].
  intros Hle. unfold Qdiv. apply Qmult_le_compat_r; [lra|].
  apply Qlt_le_weak, Qinv_lt_0_compat. lra.
Qed.

Lemma sorted_app_left {A} (R : A -> A -> Prop) (l1 l2 : list A) (x : A) :
  StronglySorted R (l1 ++ x :: l2) -> forall y, In y l1 -> R y x.
Proof.
  induction l1 as [|z l1 IH]; simpl; [tauto|].
  intros Hs y [<-|Hy].
  - inversion Hs as [|? ? _ Hall]; subst.
    rewrite Forall_forall in Hall. apply Hall.
    apply in_or_app. right. now left.
  - inversion Hs; subst. now apply IH.
Qed.

Lemma sorted_precedes (out : Series fval) (f g : string) (vf vg : Q) :
  StronglySorted (by_key_descending snd) out ->
  In (f, Some vf) out -> In (g, Some vg) out -> vf < vg ->
  precedes (g, Some vg) (f, Some vf) out.
Proof.
  intros Hs Hf Hg Hlt.
  destruct (in_split _ _ Hg) as (l1 & l2 & E). subst out.
  apply in_app_or in Hf. destruct Hf as [Hf|[Hf|Hf]].
  - pose proof (sorted_app_left _ _ _ _ Hs _ Hf) as H.
    unfold by_key_descending in H. simpl in H. lra.
  - injection Hf as _ E. rewrite E in Hlt. now apply Qlt_irrefl in Hlt.
  - destruct (in_split _ _ Hf) as (m1 & m2 & E). subst l2.
    exists l1, m1, m2. reflexivity.
Qed.

(** X3.  On a shared key set with no flat estimator, a feature that no
    estimator scores above another has a consensus no larger than the
    other's, and whenever its consensus is strictly smaller it comes
    after the other in the ranking. *)
Theorem consensus_respects_dominance
  (rf perm shap reg : ImportanceScore) (pc1 pc2 : Series fval)
  (f g : string) (a b c d a' b' c' d' : Q) :
  NoDup (keys rf) ->
  shares_keys rf perm -> shares_keys rf shap -> shares_keys rf reg ->
  shares_keys rf pc1 -> shares_keys rf pc2 ->
  ~ degenerate rf -> ~ degenerate perm ->
  ~ degenerate shap -> ~ degenerate reg ->
  get f rf = Some a -> get f perm = Some b ->
  get f shap = Some c -> get f reg = Some d ->
  get g rf = Some a' -> get g perm = Some b' ->
  get g shap = Some c' -> get g reg = Some d' ->
  a <= a' -> b <= b' -> c <= c' -> d <= d' ->
  let out := consensus_importance (to_series rf) (to_series perm)
               (to_series shap) (to_series reg) pc1 pc2 in
  exists vf vg,
    get f out = Some (Some vf) /\ get g out = Some (Some vg)
    /\ vf <= vg
    /\ (vf < vg -> precedes (g, Some vg) (f, Some vf) out).
Proof.
  intros Hnd H1 H2 H3 H4 H5 Drf Dperm Dshap Dreg
         Ha Hb Hc Hd Ha' Hb' Hc' Hd' La Lb Lc Ld out.
  destruct (consensus_importance_get rf perm shap reg pc1 pc2 f a b c d
              Hnd H1 H2 H3 H4 H5 Ha Hb Hc Hd) as [v [Hget Hv]].
  destruct (consensus_importance_get rf perm shap reg pc1 pc2 g a' b' c' d'
              Hnd H1 H2 H3 H4 H5 Ha' Hb' Hc' Hd') as [v' [Hget' Hv']].
  destruct (normalized_monotone rf a a' Drf
              (get_values _ _ _ Ha) (get_values _ _ _ Ha'))
    as (na & na' & Ea & Ea' & Ma).
  destruct (normalized_monotone perm b b' Dperm
              (get_values _ _ _ Hb) (get_values _ _ _ Hb'))
    as (nb & nb' & Eb & Eb' & Mb).
  destruct (normalized_monotone shap c c' Dshap
              (get_values _ _ _ Hc) (get_values _ _ _ Hc'))
    as (nc & nc' & Ec & Ec' & Mc).
  destruct (normalized_monotone reg d d' Dreg
              (get_values _ _ _ Hd) (get_values _ _ _ Hd'))
    as (nd & nd' & Ed & Ed' & Md).
  rewrite Ea, Eb, Ec, Ed in Hv. rewrite Ea', Eb', Ec', Ed' in Hv'.
  destruct (mean4 _ _ _ _ _ Hv) as [q [-> Hq]].
  destruct (mean4 _ _ _ _ _ Hv') as [q' [-> Hq']].
  specialize (Ma La). specialize (Mb Lb).
  specialize (Mc Lc). specialize (Md Ld).
  assert (E4 : 4 * q == na + nb + nc + nd) by (rewrite Hq; field).
  assert (E4' : 4 * q' == na' + nb' + nc' + nd') by (rewrite Hq'; field).
  exists q, q'. split; [exact Hget|]. split; [exact Hget'|].
  split; [lra|].
  intros Hlt.
  apply sorted_precedes;
    [apply nargsort_descending_sorted|now apply get_In|now apply get_In
    |exact Hlt].
Qed.

Lemma consensus_respects_dominance_witness :
  let out := consensus_importance (to_series Sample.rf)
               (to_series Sample.perm) (to_series Sample.shap)
               (to_series Sample.reg) Sample.pc1 Sample.pc2 in
  exists vf vg,
    get "children"%string out = Some (Some vf)
    /\ get "smoker"%string out = Some (Some vg)
    /\ vf <= vg
    /\ (vf < vg
        -> precedes ("smoker"%string, Some vg) ("children"%string, Some vf)
                    out).
Proof.
  apply (consensus_respects_dominance Sample.rf Sample.perm Sample.shap
           Sample.reg Sample.pc1 Sample.pc2 "children" "smoker"
           (5 # 100) 0 500 600 (6 # 10) 1 8000 9500
           sample_keys_nodup sample_shares_perm sample_shares_perm
           sample_shares_perm sample_shares_pc sample_shares_pc
           sample_rf_not_flat sample_perm_not_flat
           sample_shap_not_flat sample_reg_not_flat);
    first [reflexivity | apply Qle_bool_imp_le; reflexivity].
Defined.

(** ** The importance frames *)

Lemma get_None {A} (s : Series A) (k : string) :
  get k s = None <-> ~ In k (keys s).
Proof.
  induction s as [|[k' v] s IH]; simpl; [tauto|].
  destruct (String.eqb k k') eqn:E.
  - apply String.eqb_eq in E. split; [discriminate|]. intros H.
    exfalso. apply H. left. now symmetry.
  - apply String.eqb_neq in E. rewrite IH. split.
    + intros H [H'|H']; [congruence|contradiction].
    + intros H H'. apply H. now right.
Qed.

Lemma get_Permutation {A} (s s' : Series A) (k : string) :
  NoDup (keys s) -> Permutation s s' -> get k s' = get k s.
Proof.
  intros Hnd HP.
  assert (Hnd' : NoDup (keys s')).
  { eapply Permutation_NoDup; [apply Permutation_map; exact HP|exact Hnd]. }
  destruct (get k s) as [v|] eqn:E.
  - apply In_get; [exact Hnd'|].
    eapply Permutation_in; [exact HP|now apply get_In].
  - apply get_None. apply get_None in E. intros H. apply E.
    eapply Permutation_in; [symmetry; apply Permutation_map; exact HP|].
    exact H.
Qed.

Lemma keys_combine {A} (names : list string) (vals : list A) :
  List.length vals = List.length names -> keys (combine names vals) = names.
Proof.
  revert vals. induction names as [|k names IH]; intros [|v vals];
    simpl; try discriminate; auto.
  intros [= H]. f_equal. now apply IH.
Qed.

Lemma get_combine_nth {A} (names : list string) (vals : list A)
  (j : nat) (d : A) :
  NoDup names -> List.length vals = List.length names ->
  (j < List.length names)%nat ->
  get (nth j names ""%string) (combine names vals) = Some (nth j vals d).
Proof.
  revert vals j. induction names as [|k names IH]; intros [|v vals] j Hnd;
    simpl; try discriminate; try lia.
  intros [= Hlen] Hj. inversion Hnd as [|? ? Hk Hnd']; subst.
  destruct j as [|j].
  - now rewrite String.eqb_refl.
  - destruct (String.eqb (nth j names ""%string) k) eqn:E.
    + apply String.eqb_eq in E. exfalso. apply Hk. rewrite <- E.
      apply nth_In. lia.
    + apply IH; [exact Hnd'|exact Hlen|lia].
Qed.

Lemma sorted_head_is_max {A} (key : A -> fval) (l : list A) (r : A) (v : Q) :
  StronglySorted (by_key_descending key) (r :: l) -> key r = Some v ->
  forall r' q, In r' (r :: l) -> key r' = Some q -> q <= v.
Proof.
  intros Hs Hr r' q [<-|Hin] Hq.
  - rewrite Hr in Hq. injection Hq as <-. apply Qle_refl.
  - inversion Hs as [|? ? _ Hall]; subst.
    rewrite Forall_forall in Hall. specialize (Hall r' Hin).
    unfold by_key_descending in Hall. now rewrite Hr, Hq in Hall.
Qed.

(** X5.  The forest frame ranks the features without losing any: its
    keys are the feature names, each feature keeps the importance the
    forest reported for it, the rows are in descending order of
    importance, and the first row has the largest importance.  Nothing
    is stated of the order of rows that tie. *)
Theorem rf_importance_ranking (feature_names : list string)
  (feature_importances_ : list Q) :
  NoDup feature_names ->
  List.length feature_importances_ = List.length feature_names ->
  let frame := rf_importance feature_names feature_importances_ in
  Permutation (keys frame) feature_names
  /\ (forall j, (j < List.length feature_names)%nat ->
        get (nth j feature_names ""%string) frame
        = Some (Some (nth j feature_importances_ 0)))
  /\ StronglySorted (by_key_descending snd) frame
  /\ (forall f v, hd_error frame = Some (f, Some v) ->
        Forall (fun q => q <= v) feature_importances_).
Proof.
  intros Hnd Hlen frame.
  set (rows := combine feature_names (map Some feature_importances_)).
  assert (Hlen' : List.length (map Some feature_importances_)
                  = List.length feature_names) by now rewrite length_map.
  assert (HP : Permutation frame rows) by apply nargsort_descending_perm.
  assert (HK : keys rows = feature_names) by now apply keys_combine.
  assert (HS : StronglySorted (by_key_descending snd) frame)
    by apply nargsort_descending_sorted.
  split; [|split; [|split]].
  - rewrite <- HK. apply Permutation_map, HP.
  - intros j Hj.
    rewrite (get_Permutation rows frame) by
      (first [now rewrite HK | now symmetry]).
    unfold rows. rewrite (get_combine_nth _ _ j NaN) by assumption.
    f_equal. rewrite (nth_indep _ NaN (Some 0))
      by (rewrite length_map, Hlen; exact Hj).
    apply map_nth.
  - exact HS.
  - intros f v Hhd. destruct frame as [|r frame'] eqn:E; [discriminate|].
    injection Hhd as ->. apply Forall_forall. intros q Hq.
    destruct (In_nth _ _ 0 Hq) as [j [Hj Ej]].
    assert (Hin : In (nth j feature_names ""%string, Some q)
                     ((f, Some v) :: frame')).
    { eapply Permutation_in; [symmetry; exact HP|].
      apply get_In. unfold rows.
      rewrite (get_combine_nth _ _ j NaN) by (first [assumption | lia]).
      f_equal. rewrite (nth_indep _ NaN (Some 0))
        by (rewrite length_map; exact Hj).
      rewrite <- Ej. apply map_nth. }
    exact (sorted_head_is_max snd _ _ v HS eq_refl _ q Hin eq_refl).
Qed.

Lemma rf_importance_ranking_witness :
  Permutation
    (keys (rf_importance ["age"; "bmi"; "smoker"]%string
             [15 # 100; 25 # 100; 60 # 100]))
    ["age"; "bmi"; "smoker"]%string.
Proof.
  refine (proj1 (rf_importance_ranking ["age"; "bmi"; "smoker"]%string
                   [15 # 100; 25 # 100; 60 # 100] _ _)).
  - solve_nodup.
  - reflexivity.
Defined.

Lemma nth_combine_lift (means stds : list Q) (j : nat) :
  List.length stds = List.length means -> (j < List.length means)%nat ->
  nth j (combine (map Some means) (map Some stds)) (NaN, NaN)
  = (Some (nth j means 0), Some (nth j stds 0)).
Proof.
  revert stds j. induction means as [|m means IH]; intros [|sd stds] j;
    simpl; try discriminate; try lia.
  intros [= Hlen] Hj. destruct j as [|j]; [reflexivity|].
  apply IH; [exact Hlen|lia].
Qed.

(** X6.  The permutation frame keeps each feature's mean score and its
    standard deviation over the repeats together, ranks the rows by the
    mean alone, and hands the comparison table the mean of each feature. *)
Theorem perm_importance_rows (feature_names : list string)
  (importances_mean importances_std : list Q) :
  NoDup feature_names ->
  List.length importances_mean = List.length feature_names ->
  List.length importances_std = List.length feature_names ->
  let frame :=
    perm_importance feature_names importances_mean importances_std in
  Permutation (keys frame) feature_names
  /\ StronglySorted (by_key_descending (fun r => fst (snd r))) frame
  /\ (forall j, (j < List.length feature_names)%nat ->
        get (nth j feature_names ""%string) frame
        = Some (Some (nth j importances_mean 0),
                Some (nth j importances_std 0))
        /\ get (nth j feature_names ""%string) (importance_column frame)
           = Some (Some (nth j importances_mean 0))).
Proof.
  intros Hnd Hm Hs frame.
  set (rows := combine feature_names
                 (combine (map Some importances_mean)
                          (map Some importances_std))).
  assert (Hlen : List.length (combine (map Some importances_mean)
                                      (map Some importances_std))
                 = List.length feature_names).
  { rewrite length_combine, !length_map. lia. }
  assert (HP : Permutation frame rows) by apply nargsort_descending_perm.
  assert (HK : keys rows = feature_names) by now apply keys_combine.
  split; [|split].
  - rewrite <- HK. apply Permutation_map, HP.
  - apply nargsort_descending_sorted.
  - intros j Hj.
    assert (Hget : get (nth j feature_names ""%string) frame
                   = Some (Some (nth j importances_mean 0),
                           Some (nth j importances_std 0))).
    { rewrite (get_Permutation rows frame) by
        (first [now rewrite HK | now symmetry]).
      unfold rows. rewrite (get_combine_nth _ _ j (NaN, NaN)) by assumption.
      f_equal. apply nth_combine_lift; lia. }
    split; [exact Hget|].
    apply get_In in Hget. apply In_get.
    + assert (E : keys (importance_column frame) = keys frame).
      { unfold keys, importance_column. now rewrite map_map. }
      rewrite E. eapply Permutation_NoDup; [|exact Hnd].
      symmetry. rewrite <- HK. apply Permutation_map, HP.
    + unfold importance_column. apply in_map_iff.
      eexists. split; [|exact Hget]. reflexivity.
Qed.

Lemma perm_importance_rows_witness :
  Permutation
    (keys (perm_importance ["age"; "bmi"; "smoker"]%string
             [3 # 10; 1 # 10; 9 # 10] [1 # 100; 2 # 100; 5 # 100]))
    ["age"; "bmi"; "smoker"]%string.
Proof.
  refine (proj1 (perm_importance_rows ["age"; "bmi"; "smoker"]%string
                   [3 # 10; 1 # 10; 9 # 10] [1 # 100; 2 # 100; 5 # 100]
                   _ _ _)).
  - solve_nodup.
  - reflexivity.
  - reflexivity.
Defined.

(** ** The SHAP frame on few rows *)

Lemma qsum_nonneg (l : list Q) : Forall (fun q => 0 <= q) l -> 0 <= qsum l.
Proof.
  induction 1 as [|q l Hq _ IH]; simpl; [apply Qle_refl|lra].
Qed.

Lemma qlist_mean_nonneg (l : list Q) (m : Q) :
  Forall (fun q => 0 <= q) l -> qlist_mean l = Some m -> 0 <= m.
Proof.
  intros Hall E. destruct l as [|x l]; [discriminate|].
  assert (Hpos : 0 < inject_Z (Z.of_nat (List.length (x :: l)))).
  { apply inject_Z_of_nat_pos. simpl. lia. }
  pose proof (qsum_nonneg _ Hall) as Hs.
  unfold qlist_mean in E. injection E as E. rewrite <- E.
  apply Qle_shift_div_l; [exact Hpos|]. rewrite Qmult_0_l. exact Hs.
Qed.

Lemma qlist_mean_abs_nonneg {A} (g : A -> Q) (l : list A) (m : Q) :
  qlist_mean (map (fun r => Qabs (g r)) l) = Some m -> 0 <= m.
Proof.
  apply qlist_mean_nonneg. apply Forall_forall. intros q Hq.
  apply in_map_iff in Hq. destruct Hq as [r' [<- _]]. apply Qabs_nonneg.
Qed.

(** X7.  With at least one held-out row, every importance of the SHAP frame
    is a number, never NaN, and is non-negative, whatever the signs of the
    attributions. *)
Theorem shap_importance_nonneg (feature_names : list string)
  (shap_values : list (list Q)) :
  shap_values <> [] ->
  Forall (fun r => exists q, snd r = Some q /\ 0 <= q)
         (shap_importance feature_names shap_values).
Proof.
  intros Hne. apply Forall_forall. intros [k v] Hin.
  apply (Permutation_in _ (nargsort_descending_perm snd _)) in Hin.
  apply in_combine_r in Hin. unfold mean_abs_axis0 in Hin.
  apply in_map_iff in Hin. destruct Hin as [j [E _]]. simpl.
  destruct v as [q|].
  - exists q. split; [reflexivity|exact (qlist_mean_abs_nonneg _ _ _ E)].
  - destruct shap_values; [congruence|discriminate E].
Qed.

Lemma shap_importance_nonneg_witness :
  Forall (fun r => exists q, snd r = Some q /\ 0 <= q)
         (shap_importance ["age"; "smoker"]%string
            [[-300; 9000]; [500; -4000]]).
Proof.
  apply (shap_importance_nonneg ["age"; "smoker"]%string
           [[-300; 9000]; [500; -4000]]).
  discriminate.
Defined.

(** ** The encoding cell *)

Lemma levels_NoDup (col : list string) : NoDup (levels col).
Proof.
  unfold levels.
  eapply Permutation_NoDup; [symmetry; apply sort_labels_perm|].
  apply uniques_NoDup.
Qed.

Lemma levels_In (col : list string) (v : string) :
  In v (levels col) <-> In v col.
Proof.
  unfold levels.
  rewrite (Permutation_in_iff _ _ v (sort_labels_perm _)).
  apply uniques_In.
Qed.

Lemma count_eqb_NoDup (v : string) (l : list string) :
  NoDup l ->
  (List.length (filter (String.eqb v) l) <= 1)%nat
  /\ (List.length (filter (String.eqb v) l) = 0%nat <-> ~ In v l).
Proof.
  induction 1 as [|x l Hx Hnd IH]; simpl.
  - split; [lia|tauto].
  - destruct IH as [IH1 IH2].
    destruct (String.eqb v x) eqn:E.
    + apply String.eqb_eq in E. subst x.
      apply IH2 in Hx. simpl. rewrite Hx. split; [lia|].
      split; [discriminate|]. intros H. exfalso. apply H. now left.
    + apply String.eqb_neq in E. split; [exact IH1|].
      rewrite IH2. split.
      * intros H [H'|H']; [congruence|contradiction].
      * intros H H'. apply H. now right.
Qed.

Lemma set_in_row_levels (prefix : string) (col : list string) (i : nat) :
  (i < List.length col)%nat ->
  set_in_row i (get_dummies_1d prefix col)
  = List.length (filter (String.eqb (nth i col ""%string))
                        (tl (levels col))).
Proof.
  intros Hi. unfold set_in_row, get_dummies_1d.
  induction (tl (levels col)) as [|l lv IH]; [reflexivity|].
  simpl.
  rewrite (nth_indep _ false (String.eqb ""%string l))
    by (rewrite length_map; exact Hi).
  rewrite (map_nth (fun v => String.eqb v l)).
  destruct (String.eqb (nth i col ""%string) l); simpl; now rewrite IH.
Qed.

(** X8.  The indicator columns of one categorical column are one-hot with a
    reference level: no row has two of them set, and a row has none set
    exactly when its value is the first level, the one [drop_first]
    left out. *)
Theorem get_dummies_one_hot (prefix : string) (col : list string)
  (i : nat) :
  (i < List.length col)%nat ->
  let frame := get_dummies_1d prefix col in
  (set_in_row i frame <= 1)%nat
  /\ (set_in_row i frame = 0%nat
      <-> nth i col ""%string = hd ""%string (levels col))
  /\ (forall level, In level (tl (levels col)) ->
        exists column,
          get (dummy_name prefix level) frame = Some column
          /\ (nth i column false = true
              <-> nth i col ""%string = level)).
Proof.
  intros Hi frame. unfold frame. rewrite set_in_row_levels by exact Hi.
  set (v := nth i col ""%string).
  assert (Hv : In v (levels col)) by (apply levels_In, nth_In, Hi).
  pose proof (levels_NoDup col) as Hnd.
  destruct (levels col) as [|l0 lv] eqn:E; [contradiction|].
  simpl tl. simpl hd. inversion Hnd as [|? ? Hl0 Hlv]; subst.
  destruct (count_eqb_NoDup v lv Hlv) as [H1 H0].
  split; [exact H1|]. split.
  - rewrite H0. split.
    + intros Hn. destruct Hv as [Hv|Hv]; [now symmetry|contradiction].
    + intros -> H. contradiction.
  - intros level Hlevel. unfold get_dummies_1d. rewrite E. simpl tl.
    exists (map (fun x => String.eqb x level) col). split.
    + clear -Hlevel Hlv. induction lv as [|l lv IH]; [contradiction|].
      simpl. inversion Hlv as [|? ? Hl Hlv']; subst.
      destruct (String.eqb (dummy_name prefix level) (dummy_name prefix l))
        eqn:Ed.
      * apply String.eqb_eq in Ed. unfold dummy_name in Ed.
        assert (El : level = l).
        { clear -Ed. induction prefix as [|a p IHp]; simpl in Ed.
          - now injection Ed.
          - injection Ed as Ed. now apply IHp. }
        now subst l.
      * destruct Hlevel as [->|Hlevel]; [|now apply IH].
        now rewrite String.eqb_refl in Ed.
    + rewrite (nth_indep _ false (String.eqb ""%string level))
        by (rewrite length_map; exact Hi).
      rewrite (map_nth (fun x => String.eqb x level)). fold v.
      apply String.eqb_eq.
Qed.

Lemma get_dummies_one_hot_witness :
  (set_in_row 1 (get_dummies_1d "region"
                   ["southwest"; "northeast"; "southeast"]%string) <= 1)%nat.
Proof.
  refine (proj1 (get_dummies_one_hot "region"
                   ["southwest"; "northeast"; "southeast"]%string 1 _)).
  simpl. lia.
Defined.

Lemma dummy_columns_nth (prefix : string) (col col' : list string)
  (lv : list string) (i : nat) :
  map snd (map (fun level =>
                  (dummy_name prefix level,
                   map (fun v => String.eqb v level) col)) lv)
  = map snd (map (fun level =>
                    (dummy_name prefix level,
                     map (fun v => String.eqb v level) col')) lv) ->
  (i < List.length col)%nat -> List.length col = List.length col' ->
  forall level, In level lv ->
    String.eqb (nth i col ""%string) level
    = String.eqb (nth i col' ""%string) level.
Proof.
  intros E Hi Hlen level Hin.
  induction lv as [|l lv IH]; [contradiction|].
  simpl in E. injection E as E1 E2.
  destruct Hin as [->|Hin]; [|now apply IH].
  assert (En : nth i (map (fun v => String.eqb v level) col) false
               = nth i (map (fun v => String.eqb v level) col') false)
    by now rewrite E1.
  rewrite !(nth_indep _ false (String.eqb ""%string level)) in En
    by (rewrite length_map; lia).
  now rewrite !(map_nth (fun v => String.eqb v level)) in En.
Qed.

(** X9.  Dropping the first level loses nothing: two columns of the same
    length and with the same levels that get the same indicator columns
    are the same column. *)
Theorem get_dummies_injective (prefix : string) (col col' : list string) :
  List.length col = List.length col' -> levels col = levels col' ->
  map snd (get_dummies_1d prefix col) = map snd (get_dummies_1d prefix col') ->
  col = col'.
Proof.
  intros Hlen Hlv E. unfold get_dummies_1d in E. rewrite <- Hlv in E.
  apply (nth_ext _ _ ""%string ""%string Hlen). intros i Hi.
  set (v := nth i col ""%string). set (v' := nth i col' ""%string).
  assert (Hv : In v (levels col)) by (apply levels_In, nth_In, Hi).
  assert (Hv' : In v' (levels col)).
  { rewrite Hlv. apply levels_In, nth_In. lia. }
  pose proof (dummy_columns_nth prefix col col' _ i E Hi Hlen) as Hb.
  fold v v' in Hb.
  destruct (levels col) as [|l0 lv]; [contradiction|]. simpl in Hb.
  destruct Hv as [Hv|Hv].
  - destruct Hv' as [Hv'|Hv']; [congruence|].
    specialize (Hb v' Hv'). rewrite String.eqb_refl in Hb.
    now apply String.eqb_eq in Hb.
  - specialize (Hb v Hv). rewrite String.eqb_refl in Hb.
    symmetry in Hb. apply String.eqb_eq in Hb. now symmetry.
Qed.

Lemma get_dummies_injective_witness :
  ["male"; "female"; "male"]%string = ["male"; "female"; "male"]%string.
Proof.
  apply (get_dummies_injective "sex" ["male"; "female"; "male"]%string
           ["male"; "female"; "male"]%string); reflexivity.
Defined.

Lemma uniques_constant (col : list string) (v : string) :
  In v col -> Forall (fun x => x = v) col -> uniques col = [v].
Proof.
  intros Hin Hall.
  pose proof (uniques_NoDup col) as Hnd.
  assert (Hu : forall x, In x (uniques col) -> x = v).
  { intros x Hx. rewrite uniques_In in Hx.
    rewrite Forall_forall in Hall. now apply Hall. }
  assert (Hv : In v (uniques col)) by (rewrite uniques_In; exact Hin).
  destruct (uniques col) as [|x [|y l]]; [contradiction| |].
  - f_equal. apply Hu. now left.
  - exfalso. inversion Hnd as [|? ? Hx _]; subst. apply Hx.
    rewrite (Hu x) by now left. rewrite (Hu y) by (right; now left).
    now left.
Qed.

Lemma dummy_name_inj (prefix l l' : string) :
  dummy_name prefix l = dummy_name prefix l' -> l = l'.
Proof.
  unfold dummy_name. induction prefix as [|a p IH]; simpl; intros E.
  - now injection E.
  - injection E as E. now apply IH.
Qed.

Lemma keys_get_dummies (prefix : string) (col : list string) :
  keys (get_dummies_1d prefix col)
  = map (dummy_name prefix) (tl (levels col)).
Proof. unfold keys, get_dummies_1d. now rewrite map_map. Qed.

Lemma NoDup_tl {A} (l : list A) : NoDup l -> NoDup (tl l).
Proof. destruct l; simpl; [auto|]. intros H. now inversion H. Qed.

Lemma NoDup_map_injective {A B} (f : A -> B) (l : list A) :
  (forall x y, f x = f y -> x = y) -> NoDup l -> NoDup (map f l).
Proof.
  intros Hf. induction 1 as [|x l Hx _ IH]; simpl; constructor; [|exact IH].
  intros H. apply in_map_iff in H. destruct H as [y [E Hy]].
  apply Hf in E. now subst y.
Qed.

Lemma keys_get_dummies_NoDup (prefix : string) (col : list string) :
  NoDup (keys (get_dummies_1d prefix col)).
Proof.
  rewrite keys_get_dummies.
  apply NoDup_map_injective.
  - intros l l'. apply dummy_name_inj.
  - apply NoDup_tl, levels_NoDup.
Qed.

(** X10.  A categorical column with [k] distinct values gives [k - 1] indicator
    columns, with distinct names; a column with a single value gives
    none, so the feature leaves the design matrix. *)
Theorem get_dummies_column_count (prefix : string) (col : list string) :
  List.length (get_dummies_1d prefix col)
  = (List.length (levels col) - 1)%nat
  /\ NoDup (keys (get_dummies_1d prefix col))
  /\ (forall v, In v col -> Forall (fun x => x = v) col ->
        get_dummies_1d prefix col = []).
Proof.
  split; [|split].
  - unfold get_dummies_1d. rewrite length_map.
    destruct (levels col); simpl; lia.
  - apply keys_get_dummies_NoDup.
  - intros v Hin Hall. unfold get_dummies_1d, levels.
    now rewrite (uniques_constant col v Hin Hall).
Qed.

Lemma NoDup_app_intro {A} (l1 l2 : list A) :
  NoDup l1 -> NoDup l2 -> (forall x, In x l1 -> ~ In x l2) ->
  NoDup (l1 ++ l2).
Proof.
  induction 1 as [|x l1 Hx _ IH]; simpl; intros H2 Hd; [exact H2|].
  constructor.
  - intros H. apply in_app_or in H. destruct H as [H|H]; [contradiction|].
    apply (Hd x); [now left|exact H].
  - apply IH; [exact H2|]. intros y Hy. apply Hd. now right.
Qed.

Lemma filter_not_charges (prefix : string) (lv : list string) :
  (forall l, String.eqb (dummy_name prefix l) "charges" = false) ->
  filter (fun c => negb (String.eqb c "charges"))
         (map (dummy_name prefix) lv)
  = map (dummy_name prefix) lv.
Proof.
  intros H. induction lv as [|l lv IH]; simpl; [reflexivity|].
  now rewrite H, IH.
Qed.

Lemma drop_column_not_in (label : string) (cols r : list string) :
  drop_column label cols = Some r -> ~ In label r.
Proof.
  unfold drop_column. destruct (mem label cols); [|discriminate].
  intros [= <-] H. apply filter_In in H. destruct H as [_ H].
  now rewrite String.eqb_refl in H.
Qed.

(** X11.  The feature names that the encoding cell produces are distinct,
    [charges] is not among them, and they are the four plain columns
    followed by the indicator columns of [sex] and of [region]: four plus
    one less than the number of sexes plus one less than the number of
    regions in the table. *)
Theorem feature_names_distinct (sex region : list string) :
  let names :=
    ["age"%string; "bmi"%string; "children"%string; "smoker"%string]
      ++ keys (get_dummies_1d "sex" sex)
      ++ keys (get_dummies_1d "region" region) in
  feature_names_of sex region = Some names
  /\ NoDup names
  /\ ~ In "charges"%string names
  /\ List.length names
     = (4 + (List.length (levels sex) - 1)
          + (List.length (levels region) - 1))%nat.
Proof.
  intros names.
  assert (E : feature_names_of sex region = Some names).
  { unfold feature_names_of, drop_column, df_columns. simpl.
    rewrite filter_app, !keys_get_dummies.
    rewrite !filter_not_charges by reflexivity.
    unfold names. now rewrite !keys_get_dummies. }
  assert (Hc : ~ In "charges"%string names).
  { exact (drop_column_not_in _ _ _ E). }
  split; [exact E|]. split; [|split; [exact Hc|]].
  - unfold names.
    apply NoDup_app_intro; [solve_nodup| |].
    + rewrite !keys_get_dummies.
      apply NoDup_app_intro;
        [apply NoDup_map_injective;
           [intros l l'; apply dummy_name_inj
           |apply NoDup_tl, levels_NoDup]
        |apply NoDup_map_injective;
           [intros l l'; apply dummy_name_inj
           |apply NoDup_tl, levels_NoDup]
        |].
      intros x Hx Hx'. apply in_map_iff in Hx, Hx'.
      destruct Hx as [l [<- _]]. destruct Hx' as [l' [E' _]].
      discriminate E'.
    + intros x Hx Hx'. rewrite !keys_get_dummies in Hx'.
      apply in_app_or in Hx'.
      destruct Hx' as [Hx'|Hx']; apply in_map_iff in Hx';
        destruct Hx' as [l [<- _]]; simpl in Hx;
        repeat (destruct Hx as [Hx|Hx]; [discriminate Hx|]); exact Hx.
  - unfold names. rewrite !length_app.
    destruct (get_dummies_column_count "sex" sex) as [Hs _].
    destruct (get_dummies_column_count "region" region) as [Hr _].
    unfold keys. rewrite !length_map, Hs, Hr. simpl. lia.
Qed.

(** ** The loadings table *)

Lemma PC_inj (i j : nat) : PC i = PC j -> i = j.
Proof.
  unfold PC. simpl. intros E. injection E as E.
  apply Unsigned.to_uint_inj.
  assert (H : Some (Nat.to_uint i) = Some (Nat.to_uint j)).
  { rewrite <- !NilEmpty.usu. now rewrite E. }
  now injection H.
Qed.

Lemma PC_eqb (i j : nat) : String.eqb (PC i) (PC j) = (i =? j)%nat.
Proof.
  destruct (i =? j)%nat eqn:E.
  - apply Nat.eqb_eq in E. subst. apply String.eqb_refl.
  - apply Nat.eqb_neq in E. apply String.eqb_neq. intros H.
    apply E. now apply PC_inj.
Qed.

Lemma combine_seq_pc_names (n : nat) :
  combine (seq 0 n) (pc_names n) = map (fun j => (j, PC (S j))) (seq 0 n).
Proof.
  unfold pc_names. rewrite <- seq_shift, map_map.
  induction (seq 0 n) as [|j l IH]; simpl; [reflexivity|now rewrite IH].
Qed.

Lemma get_PC_seq {B} (col : nat -> B) (i a m : nat) :
  get (PC i) (map (fun j => (PC (S j), col j)) (seq a m))
  = if ((a <? i) && (i <=? a + m))%nat then Some (col (i - 1)%nat)
    else None.
Proof.
  revert a. induction m as [|m IH]; intros a; simpl.
  - destruct (a <? i)%nat eqn:E1, (i <=? a + 0)%nat eqn:E2;
      try reflexivity.
    apply Nat.ltb_lt in E1. apply Nat.leb_le in E2. lia.
  - change (NilEmpty.string_of_uint (Nat.to_uint i)
            =? NilEmpty.string_of_uint (Nat.to_uint (S a)))%string
      with (String.eqb (PC i) (PC (S a))).
    rewrite PC_eqb, IH.
    destruct (i =? S a)%nat eqn:E.
    + apply Nat.eqb_eq in E. subst i.
      replace (a <? S a)%nat with true by (symmetry; apply Nat.ltb_lt; lia).
      replace (S a <=? a + S m)%nat with true
        by (symmetry; apply Nat.leb_le; lia).
      simpl. now rewrite Nat.sub_0_r.
    + apply Nat.eqb_neq in E.
      destruct (S a <? i)%nat eqn:E1, (a <? i)%nat eqn:E2,
               (i <=? S a + m)%nat eqn:E3, (i <=? a + S m)%nat eqn:E4;
        try reflexivity; exfalso;
        repeat match goal with
               | H : (_ <? _)%nat = true |- _ => apply Nat.ltb_lt in H
               | H : (_ <? _)%nat = false |- _ => apply Nat.ltb_ge in H
               | H : (_ <=? _)%nat = true |- _ => apply Nat.leb_le in H
               | H : (_ <=? _)%nat = false |- _ => apply Nat.leb_gt in H
               end; lia.
Qed.

Lemma loadings_frame (feature_names : list string)
  (components_ : list (list Q)) :
  let n := List.length feature_names in
  loadings feature_names n components_
  = Some (map (fun j =>
                 (PC (S j),
                  combine feature_names
                    (map (fun r => Some (nth j r 0))
                         (transpose n components_))))
              (seq 0 n)).
Proof.
  intros n. unfold loadings, DataFrame_of_array. fold n.
  unfold pc_names at 1. rewrite length_map, length_seq, !Nat.eqb_refl.
  simpl. rewrite combine_seq_pc_names, map_map. reflexivity.
Qed.

(** X12.  The loadings table can be built exactly when PCA kept as many
    components as there are features.  It then has the columns [PC1] to
    [PCn] and no other, and the entry of column [PCi] for a feature is the
    loading of that feature in component [i]: the table is the transpose
    of [components_]. *)
Theorem loadings_lookup (feature_names : list string)
  (n_components : nat) (components_ : list (list Q)) :
  NoDup feature_names ->
  List.length components_ = n_components ->
  let n := List.length feature_names in
  (loadings feature_names n_components components_ = None
   <-> n_components <> n)
  /\ (forall L, loadings feature_names n_components components_ = Some L ->
        (forall i, get (PC i) L = None <-> (i = 0 \/ n < i)%nat)
        /\ (forall i j, (1 <= i <= n)%nat -> (j < n)%nat ->
              exists column,
                get (PC i) L = Some column
                /\ get (nth j feature_names ""%string) column
                   = Some (Some (nth j (nth (i - 1) components_ []) 0)))).
Proof.
  intros Hnd Hk n.
  assert (Hshape : loadings feature_names n_components components_ = None
                   <-> n_components <> n).
  { unfold loadings, DataFrame_of_array. fold n.
    unfold pc_names. rewrite length_map, length_seq, Nat.eqb_refl. simpl.
    destruct (n_components =? n)%nat eqn:E.
    - apply Nat.eqb_eq in E. split; [discriminate|congruence].
    - apply Nat.eqb_neq in E. split; [auto|reflexivity]. }
  split; [exact Hshape|].
  intros L HL.
  assert (En : n_components = n).
  { destruct (Nat.eq_dec n_components n) as [E|E]; [exact E|].
    apply Hshape in E. congruence. }
  subst n_components. rewrite En in HL. unfold n in HL.
  rewrite loadings_frame in HL. injection HL as <-. fold n.
  split.
  - intros i. rewrite get_PC_seq. simpl.
    destruct (0 <? i)%nat eqn:E1, (i <=? n)%nat eqn:E2; simpl;
      repeat match goal with
             | H : (_ <? _)%nat = true |- _ => apply Nat.ltb_lt in H
             | H : (_ <? _)%nat = false |- _ => apply Nat.ltb_ge in H
             | H : (_ <=? _)%nat = true |- _ => apply Nat.leb_le in H
             | H : (_ <=? _)%nat = false |- _ => apply Nat.leb_gt in H
             end;
      split; try discriminate; try lia; reflexivity.
  - intros i j Hi Hj. rewrite get_PC_seq. simpl.
    replace (0 <? i)%nat with true by (symmetry; apply Nat.ltb_lt; lia).
    replace (i <=? n)%nat with true by (symmetry; apply Nat.leb_le; lia).
    simpl. eexists. split; [reflexivity|].
    rewrite (get_combine_nth _ _ j NaN);
      [|exact Hnd
       |unfold transpose; now rewrite !length_map, length_seq
       |exact Hj].
    f_equal. unfold transpose. rewrite map_map.
    rewrite (nth_indep _ NaN
               (Some (nth (i - 1) (map (fun r => nth 0 r 0) components_) 0)))
      by (rewrite length_map, length_seq; exact Hj).
    rewrite (map_nth (fun f => Some (nth (i - 1)
               (map (fun r => nth f r 0) components_) 0))).
    rewrite seq_nth by exact Hj. simpl. f_equal.
    rewrite (nth_indep _ 0 (nth j [] 0))
      by (rewrite length_map; lia).
    apply (map_nth (fun r => nth j r 0)).
Qed.

Lemma loadings_lookup_witness :
  exists L,
    loadings SamplePCA.names 2 SamplePCA.components_ = Some L
    /\ (forall i, get (PC i) L = None <-> (i = 0 \/ 2 < i)%nat)
    /\ exists column,
         get (PC 2) L = Some column
         /\ get "age"%string column = Some (Some (- (4 # 5))).
Proof.
  assert (Hnd : NoDup SamplePCA.names).
  { unfold SamplePCA.names. solve_nodup. }
  pose proof (loadings_lookup SamplePCA.names 2 SamplePCA.components_
                Hnd eq_refl) as [_ H].
  eexists. split; [reflexivity|].
  destruct (H _ eq_refl) as [H1 H2]. split; [exact H1|].
  apply (H2 2%nat 0%nat); simpl; lia.
Defined.

Lemma loadings_inv (feature_names : list string) (n_components : nat)
  (components_ : list (list Q)) (L : Series (Series fval)) :
  loadings feature_names n_components components_ = Some L ->
  let n := List.length feature_names in
  n_components = n
  /\ L = map (fun j =>
               (PC (S j),
                combine feature_names
                  (map (fun r => Some (nth j r 0))
                       (transpose n components_))))
            (seq 0 n).
Proof.
  intros HL n.
  assert (En : n_components = n).
  { unfold loadings, DataFrame_of_array in HL. fold n in HL.
    unfold pc_names in HL.
    rewrite length_map, length_seq, Nat.eqb_refl in HL. simpl in HL.
    destruct (n_components =? n)%nat eqn:E; [|discriminate].
    now apply Nat.eqb_eq in E. }
  split; [exact En|]. rewrite En in HL. unfold n in HL.
  rewrite loadings_frame in HL. now injection HL as <-.
Qed.

Lemma loadings_column_get (feature_names : list string)
  (components_ : list (list Q)) (i j : nat) :
  NoDup feature_names ->
  let n := List.length feature_names in
  (i < List.length components_)%nat -> (j < n)%nat ->
  get (nth j feature_names ""%string)
      (combine feature_names
         (map (fun r => Some (nth i r 0)) (transpose n components_)))
  = Some (Some (nth j (nth i components_ []) 0)).
Proof.
  intros Hnd n Hi Hj.
  rewrite (get_combine_nth _ _ j NaN);
    [|exact Hnd
     |unfold transpose; now rewrite !length_map, length_seq
     |exact Hj].
  f_equal. unfold transpose. rewrite map_map.
  rewrite (nth_indep _ NaN
             (Some (nth i (map (fun r => nth 0 r 0) components_) 0)))
    by (rewrite length_map, length_seq; exact Hj).
  rewrite (map_nth (fun f => Some (nth i
             (map (fun r => nth f r 0) components_) 0))).
  rewrite seq_nth by exact Hj. simpl. f_equal.
  rewrite (nth_indep _ 0 (nth j [] 0)) by (rewrite length_map; lia).
  apply (map_nth (fun r => nth j r 0)).
Qed.

(** X13.  The comparison cell on the loadings table returns exactly when the
    design has at least two features and the regression frame has a
    [const] row; otherwise it raises KeyError: with a single feature the
    loadings table has no column [PC2].  When it returns, the result is
    the aggregate of the four frames with the loadings of the first two
    components, feature by feature. *)
Theorem comparison_cell_outcome (rf shap : Series fval)
  (perm coef : Series (fval * fval)) (feature_names : list string)
  (components_ : list (list Q)) (L : Series (Series fval)) :
  NoDup feature_names ->
  loadings feature_names (List.length components_) components_ = Some L ->
  let n := List.length feature_names in
  ((exists out, comparison_cell rf perm shap coef L = Returned out)
   <-> (2 <= n)%nat /\ In "const"%string (keys coef))
  /\ (((n < 2)%nat \/ ~ In "const"%string (keys coef)) ->
      comparison_cell rf perm shap coef L = Raised KeyError)
  /\ (forall out, comparison_cell rf perm shap coef L = Returned out ->
        exists reg pc1 pc2,
          drop "const" (importance_column coef) = Some reg
          /\ out = consensus_importance rf (importance_column perm) shap
                     reg pc1 pc2
          /\ forall j, (j < n)%nat ->
               get (nth j feature_names ""%string) pc1
               = Some (Some (nth j (nth 0 components_ []) 0))
               /\ get (nth j feature_names ""%string) pc2
                  = Some (Some (nth j (nth 1 components_ []) 0))).
Proof.
  intros Hnd HL n.
  destruct (loadings_inv _ _ _ _ HL) as [Hk EL]. fold n in Hk, EL.
  assert (HK : keys (importance_column coef) = keys coef).
  { unfold keys, importance_column. now rewrite map_map. }
  assert (Hdrop : drop "const" (importance_column coef) = None
                  <-> ~ In "const"%string (keys coef)).
  { unfold drop. rewrite HK.
    destruct (mem "const" (keys coef)) eqn:E.
    - apply mem_In in E. split; [discriminate|contradiction].
    - split; [|reflexivity]. intros _ H. apply mem_In in H. congruence. }
  assert (H1 : get "PC1"%string L
               = if (1 <=? n)%nat
                 then Some (combine feature_names
                              (map (fun r => Some (nth 0 r 0))
                                   (transpose n components_)))
                 else None).
  { change "PC1"%string with (PC 1). rewrite EL.
    rewrite (get_PC_seq (fun j => combine feature_names
                                    (map (fun r => Some (nth j r 0))
                                         (transpose n components_)))).
    reflexivity. }
  assert (H2 : get "PC2"%string L
               = if (2 <=? n)%nat
                 then Some (combine feature_names
                              (map (fun r => Some (nth 1 r 0))
                                   (transpose n components_)))
                 else None).
  { change "PC2"%string with (PC 2). rewrite EL.
    rewrite (get_PC_seq (fun j => combine feature_names
                                    (map (fun r => Some (nth j r 0))
                                         (transpose n components_)))).
    reflexivity. }
  assert (Hfail : (n < 2)%nat \/ ~ In "const"%string (keys coef) ->
                  comparison_cell rf perm shap coef L = Raised KeyError).
  { intros [Hn|Hc]; unfold comparison_cell.
    - destruct (drop "const" (importance_column coef)); [|reflexivity].
      rewrite H1, H2.
      destruct (1 <=? n)%nat; [|reflexivity].
      destruct (2 <=? n)%nat eqn:E; [|reflexivity].
      apply Nat.leb_le in E. lia.
    - apply Hdrop in Hc. now rewrite Hc. }
  assert (Hret : forall out,
             comparison_cell rf perm shap coef L = Returned out ->
             (2 <= n)%nat /\ In "const"%string (keys coef)).
  { intros out Ho. split.
    - destruct (le_lt_dec 2 n) as [H|H]; [exact H|].
      rewrite (Hfail (or_introl H)) in Ho. discriminate.
    - destruct (in_dec string_dec "const"%string (keys coef)) as [H|H];
        [exact H|].
      rewrite (Hfail (or_intror H)) in Ho. discriminate. }
  assert (Hcomp : forall out,
             comparison_cell rf perm shap coef L = Returned out ->
             exists reg pc1 pc2,
               drop "const" (importance_column coef) = Some reg
               /\ out = consensus_importance rf (importance_column perm)
                          shap reg pc1 pc2
               /\ forall j, (j < n)%nat ->
                    get (nth j feature_names ""%string) pc1
                    = Some (Some (nth j (nth 0 components_ []) 0))
                    /\ get (nth j feature_names ""%string) pc2
                       = Some (Some (nth j (nth 1 components_ []) 0))).
  { intros out Ho. destruct (Hret out Ho) as [Hn _].
    unfold comparison_cell in Ho.
    destruct (drop "const" (importance_column coef)) as [reg|];
      [|discriminate].
    rewrite H1, H2 in Ho.
    replace (1 <=? n)%nat with true in Ho
      by (symmetry; apply Nat.leb_le; lia).
    replace (2 <=? n)%nat with true in Ho
      by (symmetry; apply Nat.leb_le; lia).
    injection Ho as <-.
    eexists. eexists. eexists. split; [reflexivity|].
    split; [reflexivity|].
    intros j Hj. split; apply loadings_column_get; auto; lia. }
  split; [|split; [exact Hfail|exact Hcomp]].
  split; [intros [out Ho]; now apply (Hret out)|].
  intros [Hn Hc]. unfold comparison_cell.
  destruct (drop "const" (importance_column coef)) as [reg|] eqn:E.
  - rewrite H1, H2.
    replace (1 <=? n)%nat with true by (symmetry; apply Nat.leb_le; lia).
    replace (2 <=? n)%nat with true by (symmetry; apply Nat.leb_le; lia).
    eexists. reflexivity.
  - exfalso. apply (proj1 Hdrop eq_refl). exact Hc.
Qed.

Lemma comparison_cell_outcome_witness :
  exists L,
    loadings SamplePCA.names 2 SamplePCA.components_ = Some L
    /\ exists out,
         comparison_cell Sample.rf_ab Sample.perm_ac Sample.rf_ab
           Sample.coef_ab L = Returned out.
Proof.
  assert (Hnd : NoDup SamplePCA.names).
  { unfold SamplePCA.names. solve_nodup. }
  eexists. split; [reflexivity|].
  refine (proj2 (proj1 (comparison_cell_outcome Sample.rf_ab Sample.rf_ab
                          Sample.perm_ac Sample.coef_ab SamplePCA.names
                          SamplePCA.components_ _ Hnd eq_refl)) _).
  split; [simpl; lia|]. simpl. left. reflexivity.
Defined.


(** * The aggregator, flat estimators included *)








(** * What min-max normalization keeps *)




(** * The risk-threshold deriver *)

(** ** Order statistics *)

Lemma sorted_nth_le (s : list Q) (i j : nat) :
  StronglySorted (ascending (fun x => x)) s ->
  (i <= j)%nat -> (j < List.length s)%nat -> nth i s 0 <= nth j s 0.
Proof.
  intros Hs. revert i j.
  induction Hs as [|x s Hs IH Hall]; intros i j Hij Hj; simpl in Hj; [lia|].
  destruct i as [|i], j as [|j]; simpl; try lia.
  - apply Qle_refl.
  - rewrite Forall_forall in Hall. apply Hall. apply nth_In. lia.
  - apply IH; lia.
Qed.

Lemma lower_index_eq (n : nat) :
  lower_index n = Z.to_nat (95 * Z.of_nat (n - 1) / 100).
Proof.
  unfold lower_index, Qfloor, Qmult, inject_Z. simpl Qnum. simpl Qden.
  reflexivity.
Qed.

Lemma lower_index_spec (n : nat) :
  (100 * Z.of_nat (lower_index n) <= 95 * Z.of_nat (n - 1)
   < 100 * (Z.of_nat (lower_index n) + 1))%Z.
Proof.
  rewrite lower_index_eq.
  set (m := Z.of_nat (n - 1)).
  assert (Hm : (0 <= m)%Z) by (unfold m; lia).
  pose proof (Z.div_mod (95 * m) 100 ltac:(lia)) as Hd.
  pose proof (Z.mod_pos_bound (95 * m) 100 ltac:(lia)) as Hr.
  assert (Hd0 : (0 <= 95 * m / 100)%Z) by (apply Z.div_pos; lia).
  rewrite Z2Nat.id by exact Hd0. lia.
Qed.

Lemma lower_index_bounds (n : nat) :
  (lower_index n <= n - 1)%nat
  /\ (20 * (n - 1 - lower_index n) <= n + 18)%nat.
Proof. pose proof (lower_index_spec n). lia. Qed.

Lemma filter_perm_length {A} (p : A -> bool) (l l' : list A) :
  Permutation l l' -> List.length (filter p l) = List.length (filter p l').
Proof.
  induction 1; simpl; auto.
  - destruct (p x); simpl; auto.
  - destruct (p x), (p y); reflexivity.
  - congruence.
Qed.

Lemma filter_length_le {A} (p : A -> bool) (l : list A) :
  (List.length (filter p l) <= List.length l)%nat.
Proof.
  induction l as [|x l IH]; simpl; [lia|]. destruct (p x); simpl; lia.
Qed.

Lemma filter_all {A} (p : A -> bool) (l : list A) :
  (forall a, In a l -> p a = true) -> filter p l = l.
Proof.
  induction l as [|x l IH]; intros H; [reflexivity|].
  simpl. rewrite (H x (or_introl eq_refl)). f_equal. apply IH.
  intros a Ha. apply H. now right.
Qed.

Lemma in_combine_exists {A B} (l : list A) (l' : list B) (y : B) :
  List.length l = List.length l' -> In y l' ->
  exists x, In (x, y) (combine l l').
Proof.
  revert l'. induction l as [|a l IH]; intros [|b l'] Hlen Hin;
    simpl in *; try discriminate; [contradiction|].
  destruct Hin as [->|Hin].
  - exists a. now left.
  - destruct (IH l' ltac:(lia) Hin) as [x Hx]. exists x. now right.
Qed.

Lemma sorted_max_last (PC1 : list Q) (x : Q) :
  In x PC1 ->
  x <= nth (List.length PC1 - 1) (argsort (fun x => x) PC1) 0.
Proof.
  intros Hin.
  assert (Hlen : List.length (argsort (fun x => x) PC1) = List.length PC1)
    by (apply Permutation_length, argsort_perm).
  apply (Permutation_in_iff _ _ x (argsort_perm (fun x => x) PC1)) in Hin.
  apply (In_nth _ _ 0) in Hin. destruct Hin as [i [Hi <-]].
  apply sorted_nth_le; [apply (argsort_sorted (fun x => x))|lia|lia].
Qed.

Lemma last_sorted_In (PC1 : list Q) :
  PC1 <> [] ->
  In (nth (List.length PC1 - 1) (argsort (fun x => x) PC1) 0) PC1.
Proof.
  intros Hne.
  apply (Permutation_in_iff _ _ _ (argsort_perm (fun x => x) PC1)).
  apply nth_In.
  rewrite (Permutation_length (argsort_perm (fun x => x) PC1)).
  destruct PC1; [congruence|simpl; lia].
Qed.

(** The scores from sorted position [i] on are at least the score at
    [i], and those up to [i] are at most it. *)
Lemma at_least_sorted (PC1 : list Q) (t : Q) (i : nat) :
  (i < List.length PC1)%nat ->
  t <= nth i (argsort (fun x => x) PC1) 0 ->
  (List.length PC1 - i <= List.length (at_least t PC1))%nat.
Proof.
  intros Hi Ht. set (s := argsort (fun x => x) PC1) in *.
  assert (Hs : List.length s = List.length PC1)
    by (apply Permutation_length, argsort_perm).
  unfold at_least.
  rewrite (filter_perm_length _ PC1 s) by (symmetry; apply argsort_perm).
  rewrite <- (firstn_skipn i s), filter_app, length_app.
  rewrite (filter_all _ (skipn i s)).
  - rewrite length_skipn. lia.
  - intros y Hy. apply (In_nth _ _ 0) in Hy. destruct Hy as [j [Hj Ey]].
    rewrite length_skipn in Hj. rewrite nth_skipn in Ey.
    apply Qle_bool_iff. apply Qle_trans with (nth i s 0); [exact Ht|].
    rewrite <- Ey.
    apply sorted_nth_le; [apply (argsort_sorted (fun x => x))|lia|lia].
Qed.

Lemma at_most_sorted (PC1 : list Q) (t : Q) (i : nat) :
  (i < List.length PC1)%nat ->
  nth i (argsort (fun x => x) PC1) 0 <= t ->
  (S i <= List.length (at_most t PC1))%nat.
Proof.
  intros Hi Ht. set (s := argsort (fun x => x) PC1) in *.
  assert (Hs : List.length s = List.length PC1)
    by (apply Permutation_length, argsort_perm).
  unfold at_most.
  rewrite (filter_perm_length _ PC1 s) by (symmetry; apply argsort_perm).
  rewrite <- (firstn_skipn (S i) s), filter_app, length_app.
  rewrite (filter_all _ (firstn (S i) s)).
  - rewrite length_firstn. lia.
  - intros y Hy. apply (In_nth _ _ 0) in Hy. destruct Hy as [j [Hj Ey]].
    rewrite length_firstn in Hj. rewrite nth_firstn in Ey.
    destruct (j <? S i)%nat eqn:E; [|apply Nat.ltb_ge in E; lia].
    apply Nat.ltb_lt in E.
    apply Qle_bool_iff. apply Qle_trans with (nth i s 0); [|exact Ht].
    rewrite <- Ey.
    apply sorted_nth_le; [apply (argsort_sorted (fun x => x))|lia|lia].
Qed.

Lemma above_sorted (PC1 : list Q) (t : Q) (i : nat) :
  (i < List.length PC1)%nat ->
  nth i (argsort (fun x => x) PC1) 0 <= t ->
  (List.length (above t PC1) <= List.length PC1 - 1 - i)%nat.
Proof.
  intros Hi Ht. set (s := argsort (fun x => x) PC1) in *.
  assert (Hs : List.length s = List.length PC1)
    by (apply Permutation_length, argsort_perm).
  unfold above.
  rewrite (filter_perm_length _ PC1 s) by (symmetry; apply argsort_perm).
  rewrite <- (firstn_skipn (S i) s), filter_app, length_app.
  rewrite (filter_nil_iff _ (firstn (S i) s)).
  - pose proof (filter_length_le (fun x => negb (Qle_bool x t))
                  (skipn (S i) s)) as Hle.
    rewrite length_skipn in Hle. cbn [List.length Nat.add]. lia.
  - intros y Hy. apply (In_nth _ _ 0) in Hy. destruct Hy as [j [Hj Ey]].
    rewrite length_firstn in Hj. rewrite nth_firstn in Ey.
    destruct (j <? S i)%nat eqn:E; [|apply Nat.ltb_ge in E; lia].
    apply Nat.ltb_lt in E.
    apply negb_false_iff, Qle_bool_iff.
    apply Qle_trans with (nth i s 0); [|exact Ht].
    rewrite <- Ey.
    apply sorted_nth_le; [apply (argsort_sorted (fun x => x))|lia|lia].
Qed.

Lemma lerp_exact_between (a b t : Q) :
  a <= b -> 0 <= t -> t < 1 -> a <= lerp_exact a b t <= b.
Proof.
  intros Hab H0 H1. unfold lerp_exact.
  assert (Hp : 0 <= (b - a) * t) by (apply Qmult_le_0_compat; lra).
  assert (Hq : (b - a) * t <= (b - a) * 1).
  { setoid_replace ((b - a) * t) with (t * (b - a)) by ring.
    setoid_replace ((b - a) * 1) with (1 * (b - a)) by ring.
    apply Qmult_le_compat_r; lra. }
  split; lra.
Qed.

(** ** Means and majorities *)

Lemma qlist_mean_sum (l : list Q) :
  l <> [] ->
  exists m, qlist_mean l = Some m
            /\ m * inject_Z (Z.of_nat (List.length l)) == qsum l.
Proof.
  intros Hne.
  assert (Hpos : 0 < inject_Z (Z.of_nat (List.length l))).
  { apply inject_Z_of_nat_pos. destruct l; [congruence|simpl; lia]. }
  exists (qsum l / inject_Z (Z.of_nat (List.length l))). split.
  - destruct l; [congruence|reflexivity].
  - field. lra.
Qed.

Lemma qsum_smokers (l : list Policyholder) :
  Forall (fun r => smoker r = 0 \/ smoker r = 1)%Z l ->
  qsum (map inject_Z (map smoker l)) == inject_Z (Z.of_nat (smokers l)).
Proof.
  unfold smokers. induction 1 as [|r l Hr _ IH]; [reflexivity|].
  cbn [map qsum fold_right filter]. rewrite IH.
  destruct Hr as [E|E]; rewrite E.
  - change (0 =? 1)%Z with false. cbv iota. change (inject_Z 0) with 0. ring.
  - change (1 =? 1)%Z with true. cbv iota.
    change (List.length (r :: filter (fun r0 => (smoker r0 =? 1)%Z) l))
      with (S (List.length (filter (fun r0 => (smoker r0 =? 1)%Z) l))).
    rewrite Nat2Z.inj_succ. unfold Z.succ. rewrite inject_Z_plus.
    change (inject_Z 1) with 1. ring.
Qed.

Lemma half_lt_ratio (S L : Z) :
  (0 < L)%Z -> ((1 # 2) < inject_Z S / inject_Z L <-> (L < 2 * S)%Z).
Proof.
  intros HL.
  assert (Hq : 0 < inject_Z L).
  { change 0 with (inject_Z 0). now rewrite <- Zlt_Qlt. }
  assert (E : (1 # 2) * inject_Z L < inject_Z S <-> (L < 2 * S)%Z).
  { rewrite (Zlt_Qlt L (2 * S)), inject_Z_mult.
    change (inject_Z 2) with 2. split; intros H; lra. }
  rewrite <- E. split; intros H.
  - apply (Qmult_lt_r _ _ (inject_Z L) Hq) in H.
    setoid_replace (inject_Z S / inject_Z L * inject_Z L)
      with (inject_Z S) in H by (field; lra).
    exact H.
  - apply Qlt_shift_div_l; assumption.
Qed.

Lemma majority_smoker (high : list Policyholder) :
  Forall (fun r => smoker r = 0 \/ smoker r = 1)%Z high ->
  (fgt (zmean (map smoker high)) (Some (1 # 2)) = true
   <-> (List.length high < 2 * smokers high)%nat).
Proof.
  intros Hall. unfold zmean.
  destruct high as [|r high].
  - simpl. unfold smokers. simpl. split; [discriminate|lia].
  - set (h := r :: high) in *.
    assert (Hlen : List.length (map inject_Z (map smoker h))
                   = List.length h) by now rewrite !length_map.
    unfold qlist_mean. unfold h at 1. cbn [map].
    fold (map smoker (r :: high)). fold (map inject_Z (map smoker (r :: high))).
    fold h. rewrite Hlen. cbn [fgt].
    rewrite negb_true_iff.
    assert (HL : (0 < Z.of_nat (List.length h))%Z) by (unfold h; simpl; lia).
    pose proof (half_lt_ratio (Z.of_nat (smokers h))
                  (Z.of_nat (List.length h)) HL) as Hr.
    rewrite <- (qsum_smokers h Hall) in Hr.
    split.
    + intros E. apply Qle_bool_false_lt in E. apply Hr in E. lia.
    + intros H. destruct (Qle_bool _ _) eqn:E; [|reflexivity].
      apply Qle_bool_iff in E.
      assert (Hlt : (Z.of_nat (List.length h)
                     < 2 * Z.of_nat (smokers h))%Z) by lia.
      apply Hr in Hlt. lra.
Qed.

(** ** The final rule, row by row *)

Lemma band_length (a b : list bool) :
  List.length a = List.length b -> List.length (band a b) = List.length a.
Proof.
  intros H. unfold band. rewrite length_map, length_combine. lia.
Qed.

Lemma band_nth (a b : list bool) (i : nat) :
  List.length a = List.length b ->
  nth i (band a b) false = nth i a false && nth i b false.
Proof.
  revert b i. induction a as [|x a IH]; intros [|y b] i H;
    simpl in *; try discriminate.
  - destruct i; reflexivity.
  - destruct i as [|i]; [reflexivity|]. apply IH. lia.
Qed.

Lemma map_nth_bool {A} (p : A -> bool) (l : list A) (i : nat) (d : A) :
  (i < List.length l)%nat -> nth i (map p l) false = p (nth i l d).
Proof.
  intros Hi. rewrite (nth_indep _ false (p d)) by (now rewrite length_map).
  apply map_nth.
Qed.

Lemma high_risk_mask_rows (df : list Policyholder) :
  List.length (high_risk_mask df) = List.length df
  /\ forall i d, (i < List.length df)%nat ->
       (nth i (high_risk_mask df) false = true
        <-> (50 < age (nth i df d))%Z /\ 35 < bmi (nth i df d)
            /\ smoker (nth i df d) = 1%Z
            /\ (children (nth i df d) < 3)%Z).
Proof.
  unfold high_risk_mask.
  set (c1 := map (fun r => (50 <? age r)%Z) df).
  set (c2 := map (fun r => negb (Qle_bool (bmi r) 35)) df).
  set (c3 := map (fun r => (smoker r =? 1)%Z) df).
  set (c4 := map (fun r => (children r <? 3)%Z) df).
  assert (L1 : List.length c1 = List.length df) by apply length_map.
  assert (L2 : List.length c2 = List.length df) by apply length_map.
  assert (L3 : List.length c3 = List.length df) by apply length_map.
  assert (L4 : List.length c4 = List.length df) by apply length_map.
  assert (B1 : List.length (band c1 c2) = List.length df)
    by (rewrite band_length; lia).
  assert (B2 : List.length (band (band c1 c2) c3) = List.length df)
    by (rewrite band_length; lia).
  split; [rewrite band_length; lia|].
  intros i d Hi.
  rewrite !band_nth by lia.
  unfold c1, c2, c3, c4.
  rewrite (map_nth_bool _ df i d Hi), (map_nth_bool _ df i d Hi),
    (map_nth_bool _ df i d Hi), (map_nth_bool _ df i d Hi).
  rewrite !andb_true_iff, negb_true_iff, Z.ltb_lt, Z.ltb_lt, Z.eqb_eq.
  split.
  - intros [[[H1 H2] H3] H4]. apply Qle_bool_false_lt in H2. tauto.
  - intros (H1 & H2 & H3 & H4). repeat split; auto.
    destruct (Qle_bool (bmi (nth i df d)) 35) eqn:E; [|reflexivity].
    apply Qle_bool_iff in E. lra.
Qed.

(** ** The cell *)

Lemma risk_cell_outcome (lerp : Q -> Q -> Q -> Q) (df : list Policyholder)
  (n_components : nat) (X_pca : list (list Q)) :
  ((3 <= n_components)%nat -> List.length df = List.length X_pca ->
   risk_cell lerp df n_components X_pca
   = Returned (high_pc1 lerp df (PC1_of X_pca),
               recommend (high_pc1 lerp df (PC1_of X_pca))))
  /\ ((n_components < 3)%nat \/ List.length df <> List.length X_pca ->
      risk_cell lerp df n_components X_pca = Raised ValueError).
Proof.
  unfold risk_cell, pca_df. rewrite length_map. split.
  - intros Hk Hlen.
    replace (Nat.min 3 n_components =? 3)%nat with true
      by (symmetry; apply Nat.eqb_eq; lia).
    replace (List.length df =? List.length X_pca)%nat with true
      by (symmetry; apply Nat.eqb_eq; lia).
    reflexivity.
  - intros [Hk|Hlen].
    + replace (Nat.min 3 n_components =? 3)%nat with false
        by (symmetry; apply Nat.eqb_neq; lia).
      reflexivity.
    + destruct (Nat.min 3 n_components =? 3)%nat; [|reflexivity].
      replace (List.length df =? List.length X_pca)%nat with false
        by (symmetry; apply Nat.eqb_neq; lia).
      reflexivity.
Qed.

Section PercentileFacts.
Variable lerp : Q -> Q -> Q -> Q.
Hypothesis lerp_between :
  forall a b t, a <= b -> 0 <= t -> t < 1 -> a <= lerp a b t <= b.

Lemma quantile_between (PC1 : list Q) :
  PC1 <> [] ->
  let s := argsort (fun x => x) PC1 in
  let n := List.length PC1 in
  let lo := lower_index n in
  let hi := Nat.min (S lo) (n - 1) in
  exists t, pc1_thresh lerp PC1 = Some t
            /\ nth lo s 0 <= t /\ t <= nth hi s 0.
Proof.
  intros Hne s n lo hi.
  assert (Hn : (0 < n)%nat).
  { unfold n. destruct PC1; [congruence|simpl; lia]. }
  set (pos := (95 # 100) * inject_Z (Z.of_nat (n - 1))).
  assert (Hfrac : 0 <= pos - inject_Z (Qfloor pos)
                  /\ pos - inject_Z (Qfloor pos) < 1).
  { pose proof (Qfloor_le pos). pose proof (Qlt_floor pos) as H1.
    rewrite inject_Z_plus in H1. change (inject_Z 1) with 1 in H1.
    split; lra. }
  assert (Hlen : List.length s = n).
  { unfold s, n. apply Permutation_length, argsort_perm. }
  destruct (lower_index_bounds n) as [Hlo _]. fold lo in Hlo.
  assert (Hab : nth lo s 0 <= nth hi s 0).
  { apply sorted_nth_le; [apply argsort_sorted|unfold hi; lia|].
    rewrite Hlen. unfold hi. lia. }
  destruct (lerp_between _ _ _ Hab (proj1 Hfrac) (proj2 Hfrac)) as [Ha Hb].
  exists (lerp (nth lo s 0) (nth hi s 0) (pos - inject_Z (Qfloor pos))).
  split; [|split; [exact Ha|exact Hb]].
  unfold pc1_thresh, quantile. destruct PC1; [congruence|reflexivity].
Qed.

Lemma high_pc1_length (df : list Policyholder) (PC1 : list Q) (t : Q) :
  List.length df = List.length PC1 -> pc1_thresh lerp PC1 = Some t ->
  List.length (high_pc1 lerp df PC1) = List.length (above t PC1).
Proof.
  intros Hlen Ht. unfold high_pc1, above. rewrite Ht, length_map.
  clear Ht. revert PC1 Hlen.
  induction df as [|r df IH]; intros [|x PC1] Hlen; simpl in *;
    try discriminate; [reflexivity|].
  destruct (negb (Qle_bool x t)); simpl; rewrite IH; auto.
Qed.

Lemma high_pc1_In (df : list Policyholder) (PC1 : list Q) (t : Q)
  (r : Policyholder) :
  pc1_thresh lerp PC1 = Some t ->
  (In r (high_pc1 lerp df PC1) <->
   exists x, In (r, x) (combine df PC1) /\ t < x).
Proof.
  intros Ht. unfold high_pc1. rewrite Ht, in_map_iff. split.
  - intros [[r' x] [<- H]]. apply filter_In in H. destruct H as [H E].
    simpl in *. exists x. split; [exact H|].
    apply negb_true_iff in E. now apply Qle_bool_false_lt.
  - intros [x [H Hx]]. exists (r, x). split; [reflexivity|].
    apply filter_In. split; [exact H|]. simpl.
    apply negb_true_iff. destruct (Qle_bool x t) eqn:E; [|reflexivity].
    apply Qle_bool_iff in E. lra.
Qed.

Lemma high_pc1_nil (df : list Policyholder) :
  high_pc1 lerp df [] = [].
Proof. unfold high_pc1. now rewrite combine_nil. Qed.

Lemma high_pc1_size_bound (df : list Policyholder) (PC1 : list Q) :
  List.length df = List.length PC1 ->
  (List.length (high_pc1 lerp df PC1)
   <= List.length df - 1 - lower_index (List.length df))%nat.
Proof.
  intros Hlen.
  assert (Hcase : PC1 = [] \/ PC1 <> [])
    by (destruct PC1; [left|right]; congruence).
  destruct Hcase as [->|Hne]; [rewrite high_pc1_nil; simpl; lia|].
  destruct (quantile_between PC1 Hne) as (t & Ht & Hlo & _).
  rewrite (high_pc1_length df PC1 t Hlen Ht), Hlen.
  apply above_sorted; [|exact Hlo].
  destruct (lower_index_bounds (List.length PC1)).
  destruct PC1; [congruence|simpl in *; lia].
Qed.

Lemma high_pc1_constant (df : list Policyholder) (PC1 : list Q) (c : Q) :
  Forall (fun x => x == c) PC1 -> high_pc1 lerp df PC1 = [].
Proof.
  intros Hall.
  assert (Hcase : PC1 = [] \/ PC1 <> [])
    by (destruct PC1; [left|right]; congruence).
  destruct Hcase as [->|Hne]; [apply high_pc1_nil|].
  destruct (quantile_between PC1 Hne) as (t & Ht & Hlo & _).
  unfold high_pc1. rewrite Ht.
  rewrite filter_nil_iff; [reflexivity|].
  intros [r x] Hin. simpl.
  set (s := argsort (fun x => x) PC1) in *.
  set (n := List.length PC1) in *.
  assert (Hlen : List.length s = n)
    by (apply Permutation_length, argsort_perm).
  destruct (lower_index_bounds n) as [Hlon _].
  assert (Hn : (0 < n)%nat).
  { unfold n. destruct PC1; [congruence|simpl; lia]. }
  rewrite Forall_forall in Hall.
  assert (Hs : nth (lower_index n) s 0 == c).
  { apply Hall. eapply Permutation_in; [apply argsort_perm|].
    apply nth_In. fold s. lia. }
  apply in_combine_r in Hin. apply Hall in Hin.
  apply negb_false_iff, Qle_bool_iff. lra.
Qed.

(** C4.  When PCA kept at least three components the cell returns.  The
    threshold it takes is a 95th percentile of the PC1 scores: more than
    95% of [n - 1] records score at most the threshold and at least 5%
    of [n - 1] score at least it.  The cell selects exactly the records
    whose score is strictly greater than the threshold.  The recommended
    age and BMI cutoffs are the means of the selected records, their sum
    over their number, and the smoker recommendation is [yes] exactly
    when smokers are a strict majority of them.  The final rule holds of
    a record exactly when age > 50, bmi > 35, smoker = 1 and
    children < 3 all hold of it. *)
Theorem risk_threshold_deriver (df : list Policyholder)
  (n_components : nat) (X_pca : list (list Q)) :
  (3 <= n_components)%nat -> List.length df = List.length X_pca ->
  df <> [] -> Forall (fun r => smoker r = 0 \/ smoker r = 1)%Z df ->
  let PC1 := PC1_of X_pca in
  let n := List.length df in
  exists t high rec,
    risk_cell lerp df n_components X_pca = Returned (high, rec)
    /\ pc1_thresh lerp PC1 = Some t
    /\ (95 * (Z.of_nat n - 1)
        < 100 * Z.of_nat (List.length (at_most t PC1)))%Z
    /\ (5 * (Z.of_nat n - 1)
        <= 100 * Z.of_nat (List.length (at_least t PC1)))%Z
    /\ (forall r, In r high <->
                  exists x, In (r, x) (combine df PC1) /\ t < x)
    /\ (high <> [] ->
        exists ma mb,
          rec_age rec = Some ma /\ rec_bmi rec = Some mb
          /\ ma * inject_Z (Z.of_nat (List.length high))
             == qsum (map (fun r => inject_Z (age r)) high)
          /\ mb * inject_Z (Z.of_nat (List.length high))
             == qsum (map bmi high))
    /\ (rec_smoker rec = true
        <-> (List.length high < 2 * smokers high)%nat)
    /\ List.length (high_risk_mask df) = n
    /\ (forall i d, (i < n)%nat ->
          (nth i (high_risk_mask df) false = true
           <-> (50 < age (nth i df d))%Z /\ 35 < bmi (nth i df d)
               /\ smoker (nth i df d) = 1%Z
               /\ (children (nth i df d) < 3)%Z)).
Proof.
  intros Hk Hlen Hne Hsm PC1 n.
  assert (HlenP : List.length df = List.length PC1)
    by (unfold PC1, PC1_of; now rewrite length_map).
  assert (HneP : PC1 <> []).
  { intros E. rewrite E in HlenP. destruct df; [congruence|discriminate]. }
  destruct (quantile_between PC1 HneP) as (t & Ht & Hlo & Hhi).
  set (high := high_pc1 lerp df PC1).
  exists t, high, (recommend high).
  assert (Hn : (0 < List.length PC1)%nat)
    by (destruct PC1; [congruence|simpl; lia]).
  destruct (lower_index_bounds (List.length PC1)) as [Hlb _].
  pose proof (lower_index_spec (List.length PC1)) as Hspec.
  split; [now apply (proj1 (risk_cell_outcome lerp df n_components X_pca))|].
  split; [exact Ht|].
  split.
  { pose proof (at_most_sorted PC1 t (lower_index (List.length PC1))
                  ltac:(lia) Hlo) as H.
    unfold n. rewrite HlenP. lia. }
  split.
  { pose proof (at_least_sorted PC1 t
                  (Nat.min (S (lower_index (List.length PC1)))
                           (List.length PC1 - 1))
                  ltac:(lia) Hhi) as H.
    unfold n. rewrite HlenP. lia. }
  split; [intros r; now apply high_pc1_In|].
  split.
  { intros Hh. unfold recommend, zmean. cbn [rec_age rec_bmi].
    destruct (qlist_mean_sum (map inject_Z (map age high))) as [ma [Ea Sa]].
    { destruct high; [congruence|discriminate]. }
    destruct (qlist_mean_sum (map bmi high)) as [mb [Eb Sb]].
    { destruct high; [congruence|discriminate]. }
    exists ma, mb. rewrite !length_map in Sa. rewrite length_map in Sb.
    rewrite map_map in Sa. auto. }
  split.
  { unfold recommend. cbn [rec_smoker]. apply majority_smoker.
    apply Forall_forall. intros r Hr.
    rewrite Forall_forall in Hsm. apply Hsm.
    unfold high, high_pc1 in Hr. apply in_map_iff in Hr.
    destruct Hr as [[r' x] [<- H]]. apply filter_In in H.
    destruct H as [H _]. now apply in_combine_l in H. }
  exact (high_risk_mask_rows df).
Qed.

(** C10 (as amended).  When PCA kept at least three components the cell
    returns, and the strict selection above the 95th percentile keeps at
    most the records that come after position [floor (0.95 * (n - 1))]
    of the sorted scores: at most [ceil ((n - 1) / 20)] of [n] records,
    which is below [n / 20 + 1] and can exceed 5% of them.  When every
    record has the same PC1 score the selection is empty, and the
    recommended age, BMI and average charges are means of no rows, NaN,
    the smoker recommendation being [no]; the deriver has no guard for
    it. *)
Theorem high_pc1_size (df : list Policyholder) (n_components : nat)
  (X_pca : list (list Q)) :
  (3 <= n_components)%nat -> List.length df = List.length X_pca ->
  exists high rec,
    risk_cell lerp df n_components X_pca = Returned (high, rec)
    /\ (List.length high
        <= List.length df - 1 - lower_index (List.length df))%nat
    /\ (20 * List.length high <= List.length df + 18)%nat
    /\ (forall c, Forall (fun r => nth 0 r 0 == c) X_pca ->
          high = []
          /\ rec = {| rec_age := NaN; rec_bmi := NaN;
                      rec_smoker := false; rec_charges := NaN |}).
Proof.
  intros Hk Hlen.
  assert (HlenP : List.length df = List.length (PC1_of X_pca))
    by (unfold PC1_of; now rewrite length_map).
  set (high := high_pc1 lerp df (PC1_of X_pca)).
  exists high, (recommend high).
  pose proof (high_pc1_size_bound df (PC1_of X_pca) HlenP) as H1.
  fold high in H1.
  split; [now apply (proj1 (risk_cell_outcome lerp df n_components X_pca))|].
  split; [exact H1|]. split.
  - destruct (lower_index_bounds (List.length df)). lia.
  - intros c Hc.
    assert (E : high = []).
    { apply (high_pc1_constant df (PC1_of X_pca) c).
      unfold PC1_of. apply Forall_forall. intros x Hx.
      apply in_map_iff in Hx. destruct Hx as [r [<- Hr]].
      rewrite Forall_forall in Hc. now apply Hc. }
    split; [exact E|]. rewrite E. reflexivity.
Qed.

(** X14.  When PCA kept at least three components, the selection is not
    empty as soon as the sorted score just above the position
    [floor (0.95 * (n - 1))] is below the largest score, and it is empty
    when the score at that position is the largest; a selection that is
    not empty gives numbers, not NaN, as recommended age, BMI and
    average charges. *)
Theorem high_pc1_nonempty (df : list Policyholder) (n_components : nat)
  (X_pca : list (list Q)) :
  (3 <= n_components)%nat -> List.length df = List.length X_pca ->
  let s := argsort (fun x => x) (PC1_of X_pca) in
  let n := List.length df in
  let lo := lower_index n in
  let hi := Nat.min (S lo) (n - 1) in
  exists high rec,
    risk_cell lerp df n_components X_pca = Returned (high, rec)
    /\ (nth hi s 0 < nth (n - 1) s 0 -> high <> [])
    /\ (high <> [] -> nth lo s 0 < nth (n - 1) s 0)
    /\ (high <> [] ->
        exists a b c,
          rec_age rec = Some a /\ rec_bmi rec = Some b
          /\ rec_charges rec = Some c).
Proof.
  intros Hk Hlen s n lo hi.
  set (PC1 := PC1_of X_pca) in *.
  assert (HlenP : List.length df = List.length PC1)
    by (unfold PC1, PC1_of; now rewrite length_map).
  set (high := high_pc1 lerp df PC1).
  exists high, (recommend high).
  split; [now apply (proj1 (risk_cell_outcome lerp df n_components X_pca))|].
  assert (Hcase : PC1 = [] \/ PC1 <> [])
    by (destruct PC1; [left|right]; congruence).
  destruct Hcase as [E|Hne].
  { assert (Eh : high = []) by (unfold high; rewrite E; apply high_pc1_nil).
    assert (Es : s = []) by (unfold s; now rewrite E).
    rewrite Eh, Es.
    split; [intros H; destruct hi, (n - 1)%nat; simpl in H;
            now apply Qlt_irrefl in H|].
    split; intros H; congruence. }
  destruct (quantile_between PC1 Hne) as (t & Ht & Hlo & Hhi).
  fold s in Hlo, Hhi. subst hi lo n. rewrite HlenP.
  split; [|split].
  - intros Hlt.
    pose proof (last_sorted_In PC1 Hne) as HM. fold s in HM.
    destruct (in_combine_exists df PC1 _ HlenP HM) as [r Hr].
    assert (Hin : In r high).
    { apply (high_pc1_In df PC1 t r Ht). eexists. split; [exact Hr|]. lra. }
    intros E. rewrite E in Hin. contradiction.
  - intros Hh. destruct high as [|r h] eqn:E; [congruence|].
    assert (Hr : In r (high_pc1 lerp df PC1)) by (fold high; rewrite E; now left).
    apply (high_pc1_In df PC1 t r Ht) in Hr.
    destruct Hr as [x [Hx Htx]]. apply in_combine_r in Hx.
    pose proof (sorted_max_last PC1 x Hx) as Hmax. fold s in Hmax. lra.
  - intros Hh. unfold recommend, zmean. simpl.
    destruct high as [|r h]; [congruence|].
    simpl. eexists. eexists. eexists. repeat split.
Qed.

(** X15.  With at least twenty-two records and at least three components
    kept, a policyholder whose score is strictly above every other score
    is selected: the two sorted scores around the position
    [0.95 * (n - 1)] are then both among the other scores. *)
Theorem high_pc1_selects_strict_maximum
  (d1 d2 : list Policyholder) (r : Policyholder)
  (R1 R2 : list (list Q)) (row : list Q) (n_components : nat) :
  (3 <= n_components)%nat ->
  List.length d1 = List.length R1 -> List.length d2 = List.length R2 ->
  Forall (fun q => nth 0 q 0 < nth 0 row 0) (R1 ++ R2) ->
  (21 <= List.length (R1 ++ R2))%nat ->
  exists high rec,
    risk_cell lerp (d1 ++ r :: d2) n_components (R1 ++ row :: R2)
    = Returned (high, rec)
    /\ In r high.
Proof.
  intros Hk Hd1 Hd2 Hall Hn21.
  set (df := d1 ++ r :: d2). set (X_pca := R1 ++ row :: R2).
  set (x := nth 0 row 0) in *.
  set (l1 := PC1_of R1). set (l2 := PC1_of R2).
  assert (EP : PC1_of X_pca = l1 ++ x :: l2).
  { unfold X_pca, PC1_of. now rewrite map_app. }
  set (PC1 := PC1_of X_pca) in *.
  assert (Hlen : List.length df = List.length X_pca).
  { unfold df, X_pca. rewrite !length_app. simpl. lia. }
  assert (HlenP : List.length df = List.length PC1)
    by (unfold PC1, PC1_of; now rewrite length_map).
  exists (high_pc1 lerp df PC1), (recommend (high_pc1 lerp df PC1)).
  split; [now apply (proj1 (risk_cell_outcome lerp df n_components X_pca))|].
  assert (Hne : PC1 <> []) by (rewrite EP; now destruct l1).
  destruct (quantile_between PC1 Hne) as (t & Ht & _ & Hhi).
  set (s := argsort (fun x => x) PC1) in *.
  set (n := List.length PC1) in *.
  assert (Hn : (22 <= n)%nat).
  { unfold n. rewrite EP, length_app. simpl. unfold l1, l2, PC1_of.
    rewrite !length_map. rewrite length_app in Hn21. lia. }
  assert (Hs : List.length s = n)
    by (apply Permutation_length, argsort_perm).
  pose proof (lower_index_spec n) as Hspec.
  set (hi := Nat.min (S (lower_index n)) (n - 1)) in *.
  assert (Hhi2 : (hi <= n - 2)%nat) by (unfold hi; lia).
  assert (Hall' : Forall (fun y => y < x) (l1 ++ l2)).
  { unfold l1, l2, PC1_of. rewrite <- map_app.
    apply Forall_forall. intros y Hy. apply in_map_iff in Hy.
    destruct Hy as [q [<- Hq]]. rewrite Forall_forall in Hall.
    now apply Hall. }
  assert (Hcount : List.length (filter (fun y => Qle_bool x y) PC1) = 1%nat).
  { rewrite EP, filter_app. simpl.
    replace (Qle_bool x x) with true
      by (symmetry; apply Qle_bool_iff, Qle_refl).
    rewrite Forall_app in Hall'. destruct Hall' as [Ha1 Ha2].
    rewrite !filter_nil_iff; [reflexivity| |].
    - intros y Hy. rewrite Forall_forall in Ha2. specialize (Ha2 y Hy).
      destruct (Qle_bool x y) eqn:E; [|reflexivity].
      apply Qle_bool_iff in E. lra.
    - intros y Hy. rewrite Forall_forall in Ha1. specialize (Ha1 y Hy).
      destruct (Qle_bool x y) eqn:E; [|reflexivity].
      apply Qle_bool_iff in E. lra. }
  assert (Hlow : nth (n - 2) s 0 < x).
  { destruct (Qlt_le_dec (nth (n - 2) s 0) x) as [H|H];
      [exact H|exfalso].
    pose proof (at_least_sorted PC1 x (n - 2) ltac:(lia) H) as Hc.
    unfold at_least in Hc. fold n in Hc. lia. }
  assert (Hth : t < x).
  { apply Qle_lt_trans with (nth hi s 0); [exact Hhi|].
    apply Qle_lt_trans with (nth (n - 2) s 0); [|exact Hlow].
    apply sorted_nth_le; [apply (argsort_sorted (fun x => x))|lia|lia]. }
  apply (high_pc1_In df PC1 t r Ht). exists x. split; [|exact Hth].
  rewrite EP. unfold df, l1, PC1_of.
  assert (Hd1' : List.length d1 = List.length (map (fun r0 => nth 0 r0 0) R1))
    by now rewrite length_map.
  clear - Hd1'. revert Hd1'. generalize (map (fun r0 => nth 0 r0 0) R1).
  induction d1 as [|a d1 IH]; intros [|b l] Hd1;
    simpl in *; try discriminate; [now left|].
  right. apply IH. lia.
Qed.
End PercentileFacts.


Lemma sample_smokers :
  Forall (fun r => smoker r = 0 \/ smoker r = 1)%Z SampleRisk.df.
Proof.
  constructor; [left; reflexivity|].
  constructor; [left; reflexivity|].
  constructor; [right; reflexivity|constructor].
Defined.

Lemma risk_threshold_deriver_witness :
  exists t high rec,
    risk_cell lerp_exact SampleRisk.df 3 SampleRisk.X_pca
    = Returned (high, rec)
    /\ pc1_thresh lerp_exact (PC1_of SampleRisk.X_pca) = Some t
    /\ forall r, In r high <->
                 exists x, In (r, x) (combine SampleRisk.df
                                        (PC1_of SampleRisk.X_pca))
                           /\ t < x.
Proof.
  destruct (risk_threshold_deriver lerp_exact lerp_exact_between
              SampleRisk.df 3 SampleRisk.X_pca)
    as (t & high & rec & H1 & H2 & _ & _ & H5 & _).
  - apply le_n.
  - reflexivity.
  - discriminate.
  - exact sample_smokers.
  - exists t, high, rec. split; [exact H1|]. split; [exact H2|exact H5].
Defined.

Lemma high_pc1_size_witness :
  exists high rec,
    risk_cell lerp_exact SampleRisk.df 3 SampleRisk.X_pca_flat
    = Returned (high, rec)
    /\ (20 * List.length high <= List.length SampleRisk.df + 18)%nat
    /\ high = []
    /\ rec_age rec = NaN /\ rec_bmi rec = NaN /\ rec_charges rec = NaN.
Proof.
  destruct (high_pc1_size lerp_exact lerp_exact_between
              SampleRisk.df 3 SampleRisk.X_pca_flat)
    as (high & rec & H1 & _ & H3 & H4).
  - apply le_n.
  - reflexivity.
  - destruct (H4 1) as [E1 E2].
    { repeat constructor. }
    exists high, rec. split; [exact H1|]. split; [exact H3|].
    split; [exact E1|]. rewrite E2. repeat split.
Defined.

(** C10, counterexample.  On 1338 records with distinct scores and three
    components, interpolating without rounding, the cell selects 67
    records, which is more than 5% of them. *)
Lemma high_pc1_of_1338_records :
  exists high rec,
    risk_cell lerp_exact SampleRisk.df_1338 3 SampleRisk.X_pca_1338
    = Returned (high, rec)
    /\ List.length SampleRisk.df_1338 = 1338%nat
    /\ List.length high = 67%nat
    /\ (1338 < 20 * 67)%nat
    /\ ~ (20 * List.length high <= List.length SampleRisk.df_1338)%nat.
Proof.
  eexists. eexists. split; [vm_compute; reflexivity|].
  split; [vm_compute; reflexivity|].
  split; [vm_compute; reflexivity|]. split; [lia|].
  match goal with
  | |- ~ (20 * List.length ?h <= List.length ?d)%nat =>
      assert (Eh : List.length h = 67%nat) by (vm_compute; reflexivity);
      assert (Ed : List.length d = 1338%nat) by (vm_compute; reflexivity);
      rewrite Eh, Ed
  end.
  lia.
Qed.

Lemma high_pc1_nonempty_witness :
  exists high rec,
    risk_cell lerp_exact SampleRisk.df_22 3 SampleRisk.X_pca_22
    = Returned (high, rec)
    /\ high <> []
    /\ exists a, rec_age rec = Some a.
Proof.
  destruct (high_pc1_nonempty lerp_exact lerp_exact_between
              SampleRisk.df_22 3 SampleRisk.X_pca_22)
    as (high & rec & H1 & H2 & _ & H4).
  - apply le_n.
  - reflexivity.
  - assert (Hne : high <> []) by (apply H2; vm_compute; reflexivity).
    exists high, rec. split; [exact H1|]. split; [exact Hne|].
    destruct (H4 Hne) as (a & _ & _ & Ha & _). exists a. exact Ha.
Defined.

Lemma high_pc1_selects_strict_maximum_witness :
  exists high rec,
    risk_cell lerp_exact SampleRisk.df_22 3 SampleRisk.X_pca_22
    = Returned (high, rec)
    /\ In (mkPolicyholder 61 (38 # 1) 1 1 47000 false false true false) high.
Proof.
  apply (high_pc1_selects_strict_maximum lerp_exact lerp_exact_between
           (repeat (mkPolicyholder 40 (30 # 1) 1 0 9000 true false false
                      false) 21) []
           (mkPolicyholder 61 (38 # 1) 1 1 47000 false false true false)
           (repeat [0; 0; 0] 21) [] [1; 0; 0] 3).
  - apply le_n.
  - reflexivity.
  - reflexivity.
  - rewrite app_nil_r. apply Forall_forall. intros q Hq.
    apply repeat_spec in Hq. subst q. reflexivity.
  - rewrite app_nil_r, repeat_length. apply le_n.
Defined.
